(** * BrainFuckPy: band, program check and stepping engine

    A shallow embedding of [brainfuck.py]: the two-stack storage band
    (class [Band]), program sanitising and bracket checking
    ([BrainFuck.sanitize], [BrainFuck.check_valid]), the instruction
    dispatch ([BrainFuck._do_step] and its helpers) and the body of the
    driver loop of [BrainFuck.run].

    Python integers are unbounded, so cells are [Z].  The program pointer,
    the step counter and the entries of the loop stack start at 0 and are
    only ever incremented or copied from one another, so they are [nat].
    Python exceptions and [exit(code)] are results of an error monad. *)

From Stdlib Require Import ZArith Ascii String Lia.
From stdpp Require Import base list gmap strings pretty.

(** ** Exceptions and process exits *)

(** What a Python call can end in besides a value: an [IndexError] (list
    index out of range), a [KeyError] (missing dictionary key) or
    [exit(code)], with the text printed on stderr just before (without its
    leading newline). *)
Inductive error : Type :=
  | IndexError
  | KeyError
  | SystemExit (code : Z) (stderr : string).

Inductive result (A : Type) : Type :=
  | Ok (a : A)
  | Raise (e : error).

Arguments Ok {A} a.
Arguments Raise {A} e.

Definition bind {A B : Type} (m : result A) (k : A → result B) : result B :=
  match m with
  | Ok a => k a
  | Raise e => Raise e
  end.

Notation "x <- m ;; k" := (bind m (λ x, k))
  (at level 100, m at next level, right associativity).

(** ** class Band *)

Module Band.

(** [rband] is the band right of the pointer as a stack, [lband] the band
    left of it; [rband[0]] is the cell under the pointer. *)
Record t : Type := mk { lband : list Z; rband : list Z }.

(** [Band.reset]: [self.rband = [0]; self.lband = []]. *)
Definition reset (b : t) : t := {| lband := []; rband := [0%Z] |}.

(** [Band.__init__] only calls [reset]. *)
Definition new : t := reset {| lband := []; rband := [] |}.

(** [Band.left]: slices never raise, so the method is total. *)
Definition left (b : t) : t :=
  let l := match lband b with [] => [0%Z] | _ => lband b end in
  {| lband := drop 1 l; rband := take 1 l ++ rband b |}.

(** [Band.right]. *)
Definition right (b : t) : t :=
  let l := take 1 (rband b) ++ lband b in
  let r := drop 1 (rband b) in
  {| lband := l; rband := match r with [] => [0%Z] | _ => r end |}.

(** [Band.minus]: [self.rband[0] -= 1] reads and writes index 0 and
    raises [IndexError] on an empty list. *)
Definition minus (b : t) : result t :=
  match rband b !! 0%nat with
  | Some x => Ok {| lband := lband b; rband := <[0%nat := (x - 1)%Z]> (rband b) |}
  | None => Raise IndexError
  end.

(** [Band.plus]. *)
Definition plus (b : t) : result t :=
  match rband b !! 0%nat with
  | Some x => Ok {| lband := lband b; rband := <[0%nat := (x + 1)%Z]> (rband b) |}
  | None => Raise IndexError
  end.

(** [Band.get]. *)
Definition get (b : t) : result Z :=
  match rband b !! 0%nat with
  | Some x => Ok x
  | None => Raise IndexError
  end.

(** [Band.set]: [self.rband[0] = value]. *)
Definition set (value : Z) (b : t) : result t :=
  match rband b !! 0%nat with
  | Some _ => Ok {| lband := lband b; rband := <[0%nat := value]> (rband b) |}
  | None => Raise IndexError
  end.

(** The calls a client can make on a band. *)
Inductive op : Type :=
  | OLeft
  | ORight
  | OGet
  | OSet (value : Z)
  | OPlus
  | OMinus
  | OReset.

Definition apply (o : op) (b : t) : result t :=
  match o with
  | OLeft => Ok (left b)
  | ORight => Ok (right b)
  | OGet => _ <- get b ;; Ok b
  | OSet v => set v b
  | OPlus => plus b
  | OMinus => minus b
  | OReset => Ok (reset b)
  end.

(** A sequence of calls, stopping at the first exception. *)
Fixpoint run (ops : list op) (b : t) : result t :=
  match ops with
  | [] => Ok b
  | o :: ops' => b' <- apply o b ;; run ops' b'
  end.

(** The cell [k] places to the right of the pointer ([k] negative: to the
    left); cells the lists do not hold yet read as 0. *)
Definition cell (b : t) (k : Z) : Z :=
  if (0 <=? k)%Z
  then default 0%Z (rband b !! Z.to_nat k)
  else default 0%Z (lband b !! Z.to_nat (- k - 1)).

End Band.

(** ** The tape of the specification

    Specification side of the refinement: an infinite map from signed
    integer positions to integer cells, every position 0 at first, with
    the position of the head.  A finite map holds the positions written
    so far. *)

Module SpecTape.

Record t : Type := mk { pos : Z; cells : gmap Z Z }.

Definition read (tp : t) (p : Z) : Z := default 0%Z (cells tp !! p).

Definition new : t := {| pos := 0; cells := ∅ |}.

Definition moveLeft (tp : t) : t := {| pos := pos tp - 1; cells := cells tp |}.

Definition moveRight (tp : t) : t := {| pos := pos tp + 1; cells := cells tp |}.

Definition get (tp : t) : Z := read tp (pos tp).

Definition set (value : Z) (tp : t) : t :=
  {| pos := pos tp; cells := <[pos tp := value]> (cells tp) |}.

Definition increment (tp : t) : t := set (get tp + 1) tp.

Definition decrement (tp : t) : t := set (get tp - 1) tp.

Definition reset (tp : t) : t := new.

Definition apply (o : Band.op) (tp : t) : t :=
  match o with
  | Band.OLeft => moveLeft tp
  | Band.ORight => moveRight tp
  | Band.OGet => tp
  | Band.OSet v => set v tp
  | Band.OPlus => increment tp
  | Band.OMinus => decrement tp
  | Band.OReset => reset tp
  end.

Definition run (ops : list Band.op) (tp : t) : t :=
  foldl (λ tp o, apply o tp) tp ops.

End SpecTape.

(** The band [b] holds the tape [tp]: the cell [k] places from the pointer
    is the cell at position [pos tp + k], and the list with the current
    cell is not empty. *)
Definition refines (b : Band.t) (tp : SpecTape.t) : Prop :=
  Band.rband b ≠ [] ∧
  ∀ k : Z, Band.cell b k = SpecTape.read tp (SpecTape.pos tp + k).

(** The calls that take the pointer [k] cells to the right, or [- k] cells
    to the left when [k] is negative. *)
Definition walk (k : Z) : list Band.op :=
  if (0 <=? k)%Z then replicate (Z.to_nat k) Band.ORight
  else replicate (Z.to_nat (- k)) Band.OLeft.

(** ** Program text: sanitising and the bracket check *)

(** A program is Python text; its characters are modelled as [ascii]. *)
Definition program_of (s : string) : list ascii := list_ascii_of_string s.

(** [BrainFuck.valid_chars]. *)
Definition valid_chars : list ascii :=
  ["+"; "-"; "."; ","; "<"; ">"; "["; "]"]%char.

(** [BrainFuck.sanitize]: keep the characters that are in [valid_chars]. *)
Definition sanitize (program : list ascii) : list ascii :=
  filter (λ x, x ∈ valid_chars) program.

(** The two messages [check_valid] prints before [exit(-1)]. *)
Definition msg_not_balanced : string := "ERROR: Loop brackets not balanced".

Definition msg_not_enough_closing : string :=
  "ERROR: Loop bracket not balanced, not enough closing".

(** The [for] loop of [BrainFuck.check_valid], from a given [balance]. *)
Fixpoint check_valid_loop (balance : Z) (program : list ascii) : result Z :=
  match program with
  | [] => Ok balance
  | c :: rest =>
      let balance :=
        if Ascii.eqb c "[" then (balance + 1)%Z
        else if Ascii.eqb c "]" then (balance - 1)%Z
        else balance in
      if (balance <? 0)%Z then Raise (SystemExit (-1) msg_not_balanced)
      else check_valid_loop balance rest
  end.

(** [BrainFuck.check_valid]. *)
Definition check_valid (program : list ascii) : result unit :=
  balance <- check_valid_loop 0 program ;;
  if (0 <? balance)%Z then Raise (SystemExit (-1) msg_not_enough_closing)
  else Ok tt.

(** *** What the specification calls balanced *)

(** The signed depth counter of a text: opening minus closing brackets. *)
Fixpoint depth (s : list ascii) : Z :=
  match s with
  | [] => 0
  | c :: rest =>
      ((if Ascii.eqb c "[" then 1 else if Ascii.eqb c "]" then -1 else 0)
       + depth rest)%Z
  end.

(** Every bracket has its partner at the same nesting depth; any other
    character may stand anywhere. *)
Inductive Balanced : list ascii → Prop :=
  | Balanced_nil : Balanced []
  | Balanced_other c s :
      c ≠ "["%char → c ≠ "]"%char → Balanced s → Balanced (c :: s)
  | Balanced_loop s r :
      Balanced s → Balanced r → Balanced ("["%char :: s ++ "]"%char :: r).

(** [Closes k s]: [s] closes [k] loops that are open where it starts, and
    every loop it opens itself. *)
Inductive Closes : nat → list ascii → Prop :=
  | Closes_nil : Closes 0 []
  | Closes_other k c s :
      c ≠ "["%char → c ≠ "]"%char → Closes k s → Closes k (c :: s)
  | Closes_open k s : Closes (S k) s → Closes k ("["%char :: s)
  | Closes_close k s : Closes k s → Closes (S k) ("]"%char :: s).

(** ** I/O ports *)

(** The engine calls [self._read_mode.comma()] and
    [self._print_mode.dot(value)] on objects it knows only by these two
    methods; [R] and [P] are the states of such objects. *)
Class ReadMode (R : Type) : Type := comma : R → result (Z * R).

Class PrintMode (P : Type) : Type := dot : Z → P → result P.

Definition msg_eof : string := "ERROR: Read EOF. Cannot continue. Exiting...".

(** [CharReadMode] over a file whose unread characters are [unread]:
    [read(1)], [exit(-2)] at the end of the file, else [ord]. *)
Record CharReadMode : Type := { unread : list ascii }.

#[export] Instance CharReadMode_comma : ReadMode CharReadMode :=
  λ rm,
    match unread rm with
    | [] => Raise (SystemExit (-2) msg_eof)
    | c :: rest => Ok (Z.of_nat (nat_of_ascii c), {| unread := rest |})
    end.

(** The base class [PrintMode] over a file holding [written] so far:
    [file.write(str(value) + ";")]. *)
Record IntPrintMode : Type := { written : string }.

#[export] Instance IntPrintMode_dot : PrintMode IntPrintMode :=
  λ value pm, Ok {| written := written pm +:+ pretty value +:+ ";" |}.

(** ** class BrainFuck *)

(** What [DebugMode.debug] can return: [('s', n)], [('p', position)]
    and [('r')]. *)
Inductive action : Type :=
  | AStep (n : Z)
  | AUntil (position : Z)
  | AReset.

Section Engine.

Context {R P : Type} `{!ReadMode R} `{!PrintMode P}.

Record BrainFuck : Type := mkBrainFuck {
  _program : list ascii;
  _pointer : nat;
  _counter : nat;
  _loop_stack : list nat;
  _band : Band.t;
  _print_mode : P;
  _read_mode : R
}.

Definition with_pointer (p : nat) (bf : BrainFuck) : BrainFuck :=
  mkBrainFuck (_program bf) p (_counter bf) (_loop_stack bf) (_band bf)
    (_print_mode bf) (_read_mode bf).

Definition with_counter (c : nat) (bf : BrainFuck) : BrainFuck :=
  mkBrainFuck (_program bf) (_pointer bf) c (_loop_stack bf) (_band bf)
    (_print_mode bf) (_read_mode bf).

Definition with_loop_stack (s : list nat) (bf : BrainFuck) : BrainFuck :=
  mkBrainFuck (_program bf) (_pointer bf) (_counter bf) s (_band bf)
    (_print_mode bf) (_read_mode bf).

Definition with_band (b : Band.t) (bf : BrainFuck) : BrainFuck :=
  mkBrainFuck (_program bf) (_pointer bf) (_counter bf) (_loop_stack bf) b
    (_print_mode bf) (_read_mode bf).

Definition with_print_mode (pm : P) (bf : BrainFuck) : BrainFuck :=
  mkBrainFuck (_program bf) (_pointer bf) (_counter bf) (_loop_stack bf)
    (_band bf) pm (_read_mode bf).

Definition with_read_mode (rm : R) (bf : BrainFuck) : BrainFuck :=
  mkBrainFuck (_program bf) (_pointer bf) (_counter bf) (_loop_stack bf)
    (_band bf) (_print_mode bf) rm.

(** [BrainFuck.__init__] for a given program text: sanitise, check,
    start at pointer 0 with counter 0, no open loop and a new band. *)
Definition init (program : list ascii) (pm : P) (rm : R) : result BrainFuck :=
  let program := sanitize program in
  _ <- check_valid program ;;
  Ok {| _program := program; _pointer := 0; _counter := 0;
        _loop_stack := []; _band := Band.new;
        _print_mode := pm; _read_mode := rm |}.

(** [BrainFuck._dot]. *)
Definition _dot (bf : BrainFuck) : result BrainFuck :=
  v <- Band.get (_band bf) ;;
  pm <- dot v (_print_mode bf) ;;
  Ok (with_print_mode pm bf).

(** [BrainFuck._comma]: the port is called first, then [Band.set]. *)
Definition _comma (bf : BrainFuck) : result BrainFuck :=
  vr <- comma (_read_mode bf) ;;
  b <- Band.set vr.1 (_band bf) ;;
  Ok (with_band b (with_read_mode vr.2 bf)).

(** [BrainFuck._loop]: [self._loop_stack[0:0] = [self._pointer]]. *)
Definition _loop (bf : BrainFuck) : result BrainFuck :=
  Ok (with_loop_stack (_pointer bf :: _loop_stack bf) bf).

(** [BrainFuck._endloop]: deleting the slice [[0:1]] never raises,
    reading index 0 of an empty stack does. *)
Definition _endloop (bf : BrainFuck) : result BrainFuck :=
  v <- Band.get (_band bf) ;;
  if (v =? 0)%Z then Ok (with_loop_stack (drop 1 (_loop_stack bf)) bf)
  else
    match _loop_stack bf !! 0%nat with
    | Some start => Ok (with_pointer start bf)
    | None => Raise IndexError
    end.

(** The dictionary of bound methods in [_do_step], applied to [char];
    a character that is no key raises [KeyError]. *)
Definition dispatch (char : ascii) (bf : BrainFuck) : result BrainFuck :=
  if Ascii.eqb char "+" then b <- Band.plus (_band bf) ;; Ok (with_band b bf)
  else if Ascii.eqb char "-" then b <- Band.minus (_band bf) ;; Ok (with_band b bf)
  else if Ascii.eqb char "." then _dot bf
  else if Ascii.eqb char "," then _comma bf
  else if Ascii.eqb char "<" then Ok (with_band (Band.left (_band bf)) bf)
  else if Ascii.eqb char ">" then Ok (with_band (Band.right (_band bf)) bf)
  else if Ascii.eqb char "[" then _loop bf
  else if Ascii.eqb char "]" then _endloop bf
  else Raise KeyError.

(** [BrainFuck._do_step]. *)
Definition _do_step (bf : BrainFuck) : result BrainFuck :=
  if (length (_program bf) <=? _pointer bf)%nat then Ok bf
  else
    match _program bf !! _pointer bf with
    | None => Raise IndexError
    | Some char =>
        bf <- dispatch char bf ;;
        let bf := with_pointer (_pointer bf + 1) bf in
        Ok (with_counter (_counter bf + 1) bf)
    end.

(** [for _ in range(n): self._do_step()]. *)
Fixpoint run_steps (n : nat) (bf : BrainFuck) : result BrainFuck :=
  match n with
  | O => Ok bf
  | S n' => bf <- _do_step bf ;; run_steps n' bf
  end.

(** [while self._pointer < position: self._do_step()]; [None] when
    [fuel] iterations were not enough for the loop to end. *)
Fixpoint run_until (fuel : nat) (position : Z) (bf : BrainFuck)
  : option (result BrainFuck) :=
  if (Z.of_nat (_pointer bf) <? position)%Z then
    match fuel with
    | O => None
    | S fuel' =>
        match _do_step bf with
        | Ok bf' => run_until fuel' position bf'
        | Raise e => Some (Raise e)
        end
    end
  else Some (Ok bf).

(** One turn of the [while True] loop of [BrainFuck.run], for the action
    the debug mode returned. *)
Definition run_action (fuel : nat) (a : action) (bf : BrainFuck)
  : option (result BrainFuck) :=
  match a with
  | AStep n => Some (run_steps (Z.to_nat n) bf)
  | AUntil p =>
      let position := Z.min p (Z.of_nat (length (_program bf))) in
      run_until fuel position bf
  | AReset =>
      let bf := with_pointer 0 bf in
      let bf := with_counter 0 bf in
      Some (Ok (with_band (Band.reset (_band bf)) bf))
  end.

(** The pointer is past the last instruction. *)
Definition terminal (bf : BrainFuck) : Prop :=
  (length (_program bf) ≤ _pointer bf)%nat.

(** [k] is the number of steps after which the pointer first is past
    the last instruction. *)
Definition stepsUntilTerminal (bf : BrainFuck) (k : nat) : Prop :=
  (∃ bf', run_steps k bf = Ok bf' ∧ terminal bf') ∧
  ∀ j bf', (j < k)%nat → run_steps j bf = Ok bf' → ¬ terminal bf'.

(** States the engine reaches by stepping, without exception or exit. *)
Inductive steps_to : BrainFuck → BrainFuck → Prop :=
  | steps_to_refl bf : steps_to bf bf
  | steps_to_step bf bf' bf'' :
      steps_to bf bf' → _do_step bf' = Ok bf'' → steps_to bf bf''.

(** Every entry of the loop stack is the position of an opening bracket
    whose depth is the number of entries below it. *)
Fixpoint stack_ok (program : list ascii) (stack : list nat) : Prop :=
  match stack with
  | [] => True
  | start :: rest =>
      program !! start = Some "["%char ∧
      depth (take start program) = Z.of_nat (length rest) ∧
      stack_ok program rest
  end.

(** The invariant of forward execution: the program is the checked one,
    and the loop stack is as deep as the brackets before the pointer. *)
Definition engine_inv (bf : BrainFuck) : Prop :=
  check_valid (_program bf) = Ok tt ∧
  stack_ok (_program bf) (_loop_stack bf) ∧
  depth (take (_pointer bf) (_program bf)) = Z.of_nat (length (_loop_stack bf)).

End Engine.

Arguments BrainFuck : clear implicits.

(** ** Example states *)

(** The program [[+]] after its first two steps: the pointer is at the
    closing bracket, the current cell holds 1 and the loop stack holds the
    position of the opening bracket. *)
Definition at_endloop : BrainFuck CharReadMode IntPrintMode :=
  {| _program := program_of "[+]"; _pointer := 2; _counter := 2;
     _loop_stack := [0%nat];
     _band := {| Band.lband := []; Band.rband := [1%Z] |};
     _print_mode := {| written := "" |}; _read_mode := {| unread := [] |} |}.

(** The program [[->+<]] about to start on a band with 3 under the pointer
    and 0 to its right. *)
Definition move_cell : BrainFuck CharReadMode IntPrintMode :=
  {| _program := program_of "[->+<]"; _pointer := 0; _counter := 0;
     _loop_stack := [];
     _band := {| Band.lband := []; Band.rband := [3%Z; 0%Z] |};
     _print_mode := {| written := "" |}; _read_mode := {| unread := [] |} |}.

(** [move_cell] after the 16 steps that take it to the end of its
    program. *)
Definition move_cell_done : BrainFuck CharReadMode IntPrintMode :=
  {| _program := program_of "[->+<]"; _pointer := 6; _counter := 16;
     _loop_stack := [];
     _band := {| Band.lband := []; Band.rband := [0%Z; 3%Z] |};
     _print_mode := {| written := "" |}; _read_mode := {| unread := [] |} |}.

(** The program [+.] at its end. *)
Definition at_end : BrainFuck CharReadMode IntPrintMode :=
  {| _program := program_of "+."; _pointer := 2; _counter := 2;
     _loop_stack := [];
     _band := {| Band.lband := []; Band.rband := [1%Z] |};
     _print_mode := {| written := "1;" |}; _read_mode := {| unread := [] |} |}.

(** ** The driver loop with the base debug mode *)

Section Driver.

Context {R P : Type} `{!ReadMode R} `{!PrintMode P}.

(** [DebugMode.debug]: [exit(0)] once the pointer is past the last
    instruction (nothing is printed), else [('s', 1)]. *)
Definition debug (bf : BrainFuck R P) : result action :=
  if (length (_program bf) <=? _pointer bf)%nat then Raise (SystemExit 0 "")
  else Ok (AStep 1).

(** [BrainFuck.run] with the base [DebugMode]: the loop never returns; it
    ends in an [exit] or an exception, given here with the engine state
    at that moment (a failing step has not changed the engine).  [None]
    when [fuel] turns of the loop were not enough. The handler for
    [KeyboardInterrupt] is left out: no interrupt is modelled. *)
Fixpoint run (fuel : nat) (bf : BrainFuck R P) : option (error * BrainFuck R P) :=
  match debug bf with
  | Raise e => Some (e, bf)
  | Ok a =>
      match fuel with
      | O => None
      | S fuel' =>
          match run_action fuel' a bf with
          | None => None
          | Some (Raise e) => Some (e, bf)
          | Some (Ok bf') => run fuel' bf'
          end
      end
  end.

(** States the engine reaches under any driver: by steps that return and
    by resets (the [('s', n)] and [('p', position)] turns are sequences
    of steps). *)
Inductive driven_to : BrainFuck R P → BrainFuck R P → Prop :=
  | driven_to_refl bf : driven_to bf bf
  | driven_to_step bf bf' bf'' :
      driven_to bf bf' → _do_step bf' = Ok bf'' → driven_to bf bf''
  | driven_to_reset fuel bf bf' bf'' :
      driven_to bf bf' → run_action fuel AReset bf' = Some (Ok bf'') →
      driven_to bf bf''.

End Driver.

(** ** Matching brackets *)

(** The instructions at positions [from], ..., [to - 1]. *)
Definition segment (from to : nat) (program : list ascii) : list ascii :=
  take (to - from) (drop from program).

(** The entries of [stack] are the opening brackets still open before
    position [p], innermost first: the text between an entry and the next
    inner one (or [p]) is balanced, and so is the text before the
    outermost entry. *)
Fixpoint stack_matched (program : list ascii) (stack : list nat) (p : nat)
  : Prop :=
  match stack with
  | [] => Balanced (segment 0 p program)
  | start :: rest =>
      (start < p)%nat ∧
      program !! start = Some "["%char ∧
      Balanced (segment (S start) p program) ∧
      stack_matched program rest start
  end.

(** The invariant of execution under any driver: the program is sanitised
    and checked, the pointer is within the program or just past it, the
    current side of the band is not empty, and the loop stack is the
    brackets open before the pointer, on top of whatever entries earlier
    resets left behind. *)
Definition engine_wf {R P : Type} (bf : BrainFuck R P) : Prop :=
  Forall (λ c, c ∈ valid_chars) (_program bf) ∧
  check_valid (_program bf) = Ok tt ∧
  (_pointer bf ≤ length (_program bf))%nat ∧
  Band.rband (_band bf) ≠ [] ∧
  ∃ fresh stale,
    _loop_stack bf = fresh ++ stale ∧
    stack_matched (_program bf) fresh (_pointer bf).

(** ** class ReadMode: integers, one per line *)

Section LineInput.

(** Python's [int(uin.strip())] of [ReadMode.comma], or
    [int(uin.strip(), self.base)] of [IntBaseReadMode.comma]: [None] when
    it raises [ValueError]. *)
Variable int : string → option Z.

(** [ReadMode.comma] and [IntBaseReadMode.comma] over a file whose unread
    lines are [file]: [readline] returns the next line, or the empty
    string at the end of the file; an empty string exits with -2, a line
    that [int] rejects is skipped. Prompts on stderr are left out. *)
Fixpoint ReadMode_comma (file : list string) : result (Z * list string) :=
  match file with
  | [] => Raise (SystemExit (-2) msg_eof)
  | uin :: rest =>
      if decide (uin = "") then Raise (SystemExit (-2) msg_eof)
      else
        match int uin with
        | Some value => Ok (value, rest)
        | None => ReadMode_comma rest
        end
  end.

End LineInput.

(** ** class IntBasePrintMode *)

(** The exceptions of the print mode. *)
Inductive print_error : Type :=
  | ValueError (msg : string)
  | StringIndexError.

Inductive outcome (A : Type) : Type :=
  | Returned (a : A)
  | Raised (e : print_error).

Arguments Returned {A} a.
Arguments Raised {A} e.

(** Indexing a Python string: a negative index counts from the end, an
    index out of range raises [IndexError]. *)
Definition str_index (s : string) (i : Z) : option ascii :=
  let n := Z.of_nat (String.length s) in
  if (0 <=? i)%Z then String.get (Z.to_nat i) s
  else if (- n <=? i)%Z then String.get (Z.to_nat (n + i)) s
  else None.

Definition msg_base : string := "base must be between 2 and 36 inclusive or 64".

(** [IntBasePrintMode.digits]: prefix, digits and suffix for a base. *)
Definition digits (base : Z) : outcome (string * string * string) :=
  if (2 <=? base)%Z && (base <=? 36)%Z then
    Returned ("", "0123456789ABCDEFGHIJKLMNOPQRSTUVWXYZ", "")
  else if (base =? 64)%Z then
    Returned ("", "ABCDEFGHIJKLMNOPQRSTUVWXYZabcdefghijklmnopqrstuvwxyz+/", "=")
  else Raised (ValueError msg_base).

(** The [while number:] loop of [IntBasePrintMode.baseN]; [//] and [%] of
    Python are the floor division and modulo of [Z]. [None] when [fuel]
    iterations were not enough. *)
Fixpoint baseN_loop (fuel : nat) (number base : Z) (digs : string)
  (str : string) : option (outcome string) :=
  if (number =? 0)%Z then Some (Returned str)
  else
    match fuel with
    | O => None
    | S fuel' =>
        match str_index digs (number `mod` base) with
        | None => Some (Raised StringIndexError)
        | Some d => baseN_loop fuel' (number `div` base) base digs (String d str)
        end
    end.

(** [IntBasePrintMode.baseN]. *)
Definition baseN (fuel : nat) (number base : Z) : option (outcome string) :=
  match digits base with
  | Raised e => Some (Raised e)
  | Returned (pre, digs, suf) =>
      if (number =? 0)%Z then
        match str_index digs 0 with
        | Some d => Some (Returned (String d ""))
        | None => Some (Raised StringIndexError)
        end
      else
        match baseN_loop fuel number base digs pre with
        | None => None
        | Some (Raised e) => Some (Raised e)
        | Some (Returned str) => Some (Returned (str +:+ suf))
        end
  end.

(** An [IntBasePrintMode] object: its base and what its file holds. *)
Record IntBasePrintMode : Type := { base : Z; base_written : string }.

(** [IntBasePrintMode.__init__]: the test is [36 < base < 2 and base != 64]. *)
Definition IntBasePrintMode_init (b : Z) (file : string)
  : outcome IntBasePrintMode :=
  if (36 <? b)%Z && (b <? 2)%Z && negb (b =? 64)%Z
  then Raised (ValueError msg_base)
  else Returned {| base := b; base_written := file |}.

(** [IntBasePrintMode.dot]: [file.write(self.baseN(value, self.base) + ";")]. *)
Definition IntBasePrintMode_dot (fuel : nat) (value : Z) (pm : IntBasePrintMode)
  : option (outcome IntBasePrintMode) :=
  match baseN fuel value (base pm) with
  | None => None
  | Some (Raised e) => Some (Raised e)
  | Some (Returned str) =>
      Some (Returned {| base := base pm;
                        base_written := base_written pm +:+ str +:+ ";" |})
  end.

(** *** Reading a numeral back *)

(** The value of a digit of bases 2 to 36: its place among
    [0123456789ABCDEFGHIJKLMNOPQRSTUVWXYZ]. *)
Fixpoint place_of (c : ascii) (digs : string) : option Z :=
  match digs with
  | EmptyString => None
  | String d rest =>
      if Ascii.eqb c d then Some 0%Z else Z.succ <$> place_of c rest
  end.

Definition digit_value (c : ascii) : option Z :=
  place_of c "0123456789ABCDEFGHIJKLMNOPQRSTUVWXYZ".

(** The number a numeral stands for in a base, most significant digit
    first, from the value [acc] of the digits already read. *)
Fixpoint numeral_value (b acc : Z) (s : string) : option Z :=
  match s with
  | EmptyString => Some acc
  | String c rest =>
      match digit_value c with
      | Some d =>
          if (d <? b)%Z then numeral_value b (acc * b + d)%Z rest else None
      | None => None
      end
  end.

(** ** Further example states *)

(** The program [,] about to read, with no input left. *)
Definition at_comma_eof : BrainFuck CharReadMode IntPrintMode :=
  {| _program := program_of ","; _pointer := 0; _counter := 0;
     _loop_stack := [];
     _band := Band.new;
     _print_mode := {| written := "" |}; _read_mode := {| unread := [] |} |}.

(** The program [,.] about to read the text [A]. *)
Definition at_comma : BrainFuck CharReadMode IntPrintMode :=
  {| _program := program_of ",."; _pointer := 0; _counter := 0;
     _loop_stack := [];
     _band := Band.new;
     _print_mode := {| written := "" |};
     _read_mode := {| unread := ["A"%char] |} |}.

(** A print mode for base 16 whose file is empty. *)
Definition hex_mode : IntBasePrintMode := {| base := 16; base_written := "" |}.

(** A reader of lines that accepts the single line [7]. *)
Definition int_seven (uin : string) : option Z :=
  if decide (uin = "7") then Some 7%Z else None.

(** * Properties *)

(** ** The error monad *)

Lemma bind_Ok {A B : Type} (m : result A) (k : A → result B) (b : B) :
  bind m k = Ok b → ∃ a, m = Ok a ∧ k a = Ok b.
Proof. destruct m as [a|e]; simpl; [eauto | discriminate]. Qed.

(** ** The band *)

Section BandFacts.

Implicit Types (b : Band.t) (k v : Z).

Lemma Band_new_rband : Band.rband Band.new ≠ [].
Proof. discriminate. Qed.

Lemma Band_left_rband b : Band.rband (Band.left b) ≠ [].
Proof. unfold Band.left. simpl. by destruct (Band.lband b). Qed.

Lemma Band_right_rband b : Band.rband (Band.right b) ≠ [].
Proof.
  unfold Band.right. simpl. by destruct (drop 1 (Band.rband b)).
Qed.

Lemma Band_get_total b : Band.rband b ≠ [] → ∃ v, Band.get b = Ok v.
Proof. unfold Band.get. destruct (Band.rband b); [done|]. simpl. eauto. Qed.

Lemma Band_set_total v b :
  Band.rband b ≠ [] →
  ∃ b', Band.set v b = Ok b' ∧ Band.rband b' ≠ [].
Proof.
  unfold Band.set. destruct (Band.rband b); [done|]. simpl. eauto.
Qed.

Lemma Band_plus_total b :
  Band.rband b ≠ [] →
  ∃ b', Band.plus b = Ok b' ∧ Band.rband b' ≠ [].
Proof.
  unfold Band.plus. destruct (Band.rband b); [done|]. simpl. eauto.
Qed.

Lemma Band_minus_total b :
  Band.rband b ≠ [] →
  ∃ b', Band.minus b = Ok b' ∧ Band.rband b' ≠ [].
Proof.
  unfold Band.minus. destruct (Band.rband b); [done|]. simpl. eauto.
Qed.

Lemma Band_apply_total o b :
  Band.rband b ≠ [] →
  ∃ b', Band.apply o b = Ok b' ∧ Band.rband b' ≠ [].
Proof.
  intros Hr. destruct o; simpl.
  - eauto using Band_left_rband.
  - eauto using Band_right_rband.
  - destruct (Band_get_total b Hr) as [v ->]. simpl. eauto.
  - by apply Band_set_total.
  - by apply Band_plus_total.
  - by apply Band_minus_total.
  - eexists. split; [done|]. discriminate.
Qed.

Lemma Band_run_total ops b :
  Band.rband b ≠ [] →
  ∃ b', Band.run ops b = Ok b' ∧ Band.rband b' ≠ [].
Proof.
  revert b. induction ops as [|o ops IH]; intros b Hr; simpl.
  - eauto.
  - destruct (Band_apply_total o b Hr) as (b1 & -> & Hr1). simpl.
    by apply IH.
Qed.

Lemma Band_run_app ops1 ops2 b :
  Band.run (ops1 ++ ops2) b = (b' <- Band.run ops1 b ;; Band.run ops2 b').
Proof.
  revert b. induction ops1 as [|o ops1 IH]; intros b; simpl; [done|].
  destruct (Band.apply o b); simpl; [apply IH | done].
Qed.

(** *** How each call moves the cells *)

Lemma Band_cell_new k : Band.cell Band.new k = 0%Z.
Proof.
  unfold Band.cell. simpl.
  destruct (0 <=? k)%Z; [|done].
  by destruct (Z.to_nat k) as [|[|n]].
Qed.

Lemma Band_cell_left b k : Band.cell (Band.left b) k = Band.cell b (k - 1).
Proof.
  unfold Band.cell, Band.left. simpl.
  destruct (Z.leb_spec 0 k) as [Hk|Hk], (Z.leb_spec 0 (k - 1)) as [Hk1|Hk1];
    try lia.
  - replace (Z.to_nat k) with (S (Z.to_nat (k - 1))) by lia.
    by destruct (Band.lband b).
  - replace k with 0%Z by lia. simpl.
    by destruct (Band.lband b).
  - replace (Z.to_nat (- (k - 1) - 1)) with (S (Z.to_nat (- k - 1))) by lia.
    destruct (Band.lband b); simpl; [|done].
    by destruct (Z.to_nat (- k - 1)).
Qed.

Lemma Band_cell_right b k :
  Band.rband b ≠ [] → Band.cell (Band.right b) k = Band.cell b (k + 1).
Proof.
  intros Hr. unfold Band.cell, Band.right.
  destruct (Band.rband b) as [|x r]; [done|]. simpl.
  destruct (Z.leb_spec 0 k) as [Hk|Hk], (Z.leb_spec 0 (k + 1)) as [Hk1|Hk1];
    try lia.
  - replace (Z.to_nat (k + 1)) with (S (Z.to_nat k)) by lia. simpl.
    destruct r; [|done]. by destruct (Z.to_nat k) as [|[|n]].
  - replace k with (-1)%Z by lia. done.
  - replace (Z.to_nat (- k - 1)) with (S (Z.to_nat (- (k + 1) - 1))) by lia.
    done.
Qed.

Lemma Band_get_cell b : Band.rband b ≠ [] → Band.get b = Ok (Band.cell b 0).
Proof.
  intros Hr. unfold Band.get, Band.cell.
  by destruct (Band.rband b).
Qed.

Lemma Band_set_cell v b b' k :
  Band.set v b = Ok b' →
  Band.cell b' k = if decide (k = 0%Z) then v else Band.cell b k.
Proof.
  unfold Band.set, Band.cell.
  destruct (Band.rband b) as [|x r]; [done|]. simpl. intros [= <-]. simpl.
  destruct (Z.leb_spec 0 k) as [Hk|Hk].
  - destruct (decide (k = 0%Z)) as [->|Hne]; [done|].
    replace (Z.to_nat k) with (S (Z.to_nat (k - 1))) by lia. done.
  - rewrite decide_False by lia. done.
Qed.

Lemma Band_plus_set b : Band.rband b ≠ [] →
  Band.plus b = Band.set (Band.cell b 0 + 1) b.
Proof.
  intros Hr. unfold Band.plus, Band.set, Band.cell.
  by destruct (Band.rband b).
Qed.

Lemma Band_minus_set b : Band.rband b ≠ [] →
  Band.minus b = Band.set (Band.cell b 0 - 1) b.
Proof.
  intros Hr. unfold Band.minus, Band.set, Band.cell.
  by destruct (Band.rband b).
Qed.

End BandFacts.

(** ** The tape of the specification is a sparse array *)

Section SpecTapeFacts.

Implicit Types (tp : SpecTape.t) (p v : Z).

Lemma SpecTape_read_new p : SpecTape.read SpecTape.new p = 0%Z.
Proof. unfold SpecTape.read. simpl. by rewrite lookup_empty. Qed.

Lemma SpecTape_read_set v tp p :
  SpecTape.read (SpecTape.set v tp) p =
  if decide (p = SpecTape.pos tp) then v else SpecTape.read tp p.
Proof.
  unfold SpecTape.read, SpecTape.set. simpl.
  destruct (decide (p = SpecTape.pos tp)) as [->|Hne].
  - by rewrite lookup_insert_eq.
  - by rewrite lookup_insert_ne.
Qed.

Lemma SpecTape_run_cons o ops tp :
  SpecTape.run (o :: ops) tp = SpecTape.run ops (SpecTape.apply o tp).
Proof. done. Qed.

End SpecTapeFacts.

(** ** The band refines the tape *)

Section Refinement.

Implicit Types (b : Band.t) (tp : SpecTape.t).

Lemma refines_new : refines Band.new SpecTape.new.
Proof.
  split; [apply Band_new_rband|].
  intros k. by rewrite Band_cell_new, SpecTape_read_new.
Qed.

Lemma refines_set v b tp :
  refines b tp →
  ∃ b', Band.set v b = Ok b' ∧ refines b' (SpecTape.set v tp).
Proof.
  intros [Hr Hc].
  destruct (Band_set_total v b Hr) as (b' & Hset & Hr').
  exists b'. split; [done|]. split; [done|].
  intros k. rewrite (Band_set_cell _ _ _ _ Hset), SpecTape_read_set. simpl.
  destruct (decide (k = 0%Z)) as [->|Hne].
  - rewrite decide_True by lia. done.
  - rewrite decide_False by lia. apply Hc.
Qed.

Lemma refines_get b tp :
  refines b tp → Band.get b = Ok (SpecTape.get tp).
Proof.
  intros [Hr Hc]. rewrite Band_get_cell by done.
  rewrite Hc. unfold SpecTape.get. by rewrite Z.add_0_r.
Qed.

Lemma refines_cell_0 b tp : refines b tp → Band.cell b 0 = SpecTape.get tp.
Proof.
  intros [_ Hc]. rewrite Hc. unfold SpecTape.get. by rewrite Z.add_0_r.
Qed.

Lemma refines_apply o b tp :
  refines b tp →
  ∃ b', Band.apply o b = Ok b' ∧ refines b' (SpecTape.apply o tp).
Proof.
  intros Href. pose proof Href as [Hr Hc]. destruct o; simpl.
  - eexists. split; [done|]. split; [apply Band_left_rband|].
    intros k. rewrite Band_cell_left, Hc. simpl. f_equal. lia.
  - eexists. split; [done|]. split; [by apply Band_right_rband|].
    intros k. rewrite Band_cell_right, Hc by done. simpl. f_equal. lia.
  - rewrite (refines_get _ _ Href). simpl. eauto.
  - by apply refines_set.
  - rewrite Band_plus_set, (refines_cell_0 _ _ Href) by done.
    by apply refines_set.
  - rewrite Band_minus_set, (refines_cell_0 _ _ Href) by done.
    by apply refines_set.
  - eexists. split; [done|]. apply refines_new.
Qed.

Lemma refines_run ops b tp :
  refines b tp →
  ∃ b', Band.run ops b = Ok b' ∧ refines b' (SpecTape.run ops tp).
Proof.
  revert b tp. induction ops as [|o ops IH]; intros b tp Href.
  - simpl. eauto.
  - destruct (refines_apply o b tp Href) as (b1 & Hap & Href1).
    rewrite SpecTape_run_cons. simpl. rewrite Hap. simpl. by apply IH.
Qed.

Lemma Band_left_right_cell b k :
  Band.cell (Band.right (Band.left b)) k = Band.cell b k.
Proof.
  rewrite Band_cell_right, Band_cell_left by apply Band_left_rband.
  f_equal. lia.
Qed.

Lemma Band_right_left_cell b k :
  Band.rband b ≠ [] →
  Band.cell (Band.left (Band.right b)) k = Band.cell b k.
Proof.
  intros Hr. rewrite Band_cell_left, Band_cell_right by done.
  f_equal. lia.
Qed.

Lemma Band_run_rights (n : nat) b :
  Band.rband b ≠ [] →
  ∃ b', Band.run (replicate n Band.ORight) b = Ok b' ∧
        Band.rband b' ≠ [] ∧
        ∀ j, Band.cell b' j = Band.cell b (j + Z.of_nat n).
Proof.
  revert b. induction n as [|n IH]; intros b Hr.
  - exists b. split; [done|]. split; [done|].
    intros j. f_equal. lia.
  - destruct (IH (Band.right b) (Band_right_rband b)) as (b' & Hrun & Hr' & Hc).
    exists b'. split; [done|]. split; [done|].
    intros j. rewrite Hc, Band_cell_right by done. f_equal. lia.
Qed.

Lemma Band_run_lefts (n : nat) b :
  Band.rband b ≠ [] →
  ∃ b', Band.run (replicate n Band.OLeft) b = Ok b' ∧
        Band.rband b' ≠ [] ∧
        ∀ j, Band.cell b' j = Band.cell b (j - Z.of_nat n).
Proof.
  revert b. induction n as [|n IH]; intros b Hr.
  - exists b. split; [done|]. split; [done|].
    intros j. f_equal. lia.
  - destruct (IH (Band.left b) (Band_left_rband b)) as (b' & Hrun & Hr' & Hc).
    exists b'. split; [done|]. split; [done|].
    intros j. rewrite Hc, Band_cell_left. f_equal. lia.
Qed.

(** Walking [k] cells and calling get reads the cell at offset [k]. *)
Lemma Band_walk_get k b :
  Band.rband b ≠ [] →
  ∃ b', Band.run (walk k) b = Ok b' ∧ Band.get b' = Ok (Band.cell b k).
Proof.
  intros Hr. unfold walk. destruct (Z.leb_spec 0 k) as [Hk|Hk].
  - destruct (Band_run_rights (Z.to_nat k) b Hr) as (b' & Hrun & Hr' & Hc).
    exists b'. split; [done|].
    rewrite Band_get_cell, Hc by done. do 2 f_equal. lia.
  - destruct (Band_run_lefts (Z.to_nat (- k)) b Hr) as (b' & Hrun & Hr' & Hc).
    exists b'. split; [done|].
    rewrite Band_get_cell, Hc by done. do 2 f_equal. lia.
Qed.

End Refinement.

(** C7. Whatever calls (left, right, get, set, plus, minus, reset) are made
    on a new band, none raises and the list [rband], whose index 0 is the
    current cell, is not empty afterwards; so in every state a band can
    reach, get, set, plus and minus return without an out-of-range
    access. *)
Theorem Band_current_side_never_empty (ops : list Band.op) :
  ∃ b, Band.run ops Band.new = Ok b ∧
       Band.rband b ≠ [] ∧
       (∃ v, Band.get b = Ok v) ∧
       (∀ v, ∃ b', Band.set v b = Ok b') ∧
       (∃ b', Band.plus b = Ok b') ∧
       (∃ b', Band.minus b = Ok b').
Proof.
  destruct (Band_run_total ops Band.new Band_new_rband) as (b & Hrun & Hr).
  exists b. split; [done|]. split; [done|].
  split; [by apply Band_get_total|].
  split; [intros v; destruct (Band_set_total v b Hr) as (b' & ? & _); eauto|].
  split.
  - destruct (Band_plus_total b Hr) as (b' & ? & _); eauto.
  - destruct (Band_minus_total b Hr) as (b' & ? & _); eauto.
Qed.

(** C2. The two-list band is a faithful implementation of the infinite
    zero-initialised map from signed positions to cells: after any
    sequence of calls on a new band, no call has raised; every cell of the
    band, at any offset from the pointer, holds what the sparse-array tape
    holds at that position after the same calls (the value last written
    there, 0 if none was); get returns the tape's current cell; walking to
    any position and calling get returns the tape's cell there; and
    left-then-right as well as right-then-left leave every cell as it
    was. *)
Theorem Band_refines_tape (ops : list Band.op) :
  ∃ b, Band.run ops Band.new = Ok b ∧
       let tp := SpecTape.run ops SpecTape.new in
       (∀ k, Band.cell b k = SpecTape.read tp (SpecTape.pos tp + k)) ∧
       Band.get b = Ok (SpecTape.get tp) ∧
       (∀ k, ∃ b', Band.run (walk k) b = Ok b' ∧
                   Band.get b' = Ok (SpecTape.read tp (SpecTape.pos tp + k))) ∧
       (∀ k, Band.cell (Band.right (Band.left b)) k = Band.cell b k) ∧
       (∀ k, Band.cell (Band.left (Band.right b)) k = Band.cell b k).
Proof.
  destruct (refines_run ops Band.new SpecTape.new refines_new)
    as (b & Hrun & Href).
  pose proof Href as [Hr Hc].
  exists b. split; [done|]. simpl.
  split; [done|].
  split; [by apply refines_get|].
  split.
  { intros k. rewrite <- Hc. by apply Band_walk_get. }
  split; [intros k; apply Band_left_right_cell|].
  intros k. by apply Band_right_left_cell.
Qed.

(** ** Sanitising and the bracket check *)

Section Brackets.

Implicit Types (s r : list ascii) (c : ascii) (b : Z) (k n : nat).

(** What one character adds to the depth counter. *)
Lemma depth_cons c s :
  depth (c :: s) =
  ((if Ascii.eqb c "[" then 1 else if Ascii.eqb c "]" then -1 else 0)
   + depth s)%Z.
Proof. done. Qed.

Lemma depth_open s : depth ("["%char :: s) = (1 + depth s)%Z.
Proof. done. Qed.

Lemma depth_close s : depth ("]"%char :: s) = (-1 + depth s)%Z.
Proof. done. Qed.

Lemma depth_other c s :
  c ≠ "["%char → c ≠ "]"%char → depth (c :: s) = depth s.
Proof.
  intros H1 H2. rewrite depth_cons.
  apply Ascii.eqb_neq in H1, H2. by rewrite H1, H2.
Qed.

Lemma depth_app s r : depth (s ++ r) = (depth s + depth r)%Z.
Proof.
  induction s as [|c s IH]; [done|].
  rewrite <- app_comm_cons, !depth_cons, IH. lia.
Qed.

(** Three cases for a character. *)
Lemma bracket_cases c : c = "["%char ∨ c = "]"%char ∨ (c ≠ "["%char ∧ c ≠ "]"%char).
Proof.
  destruct (decide (c = "["%char)); [by left|].
  destruct (decide (c = "]"%char)); [by right; left|].
  by right; right.
Qed.

(** The loop of [check_valid] sees the same on the raw text as on the
    sanitised one: a dropped character leaves the balance as it is. *)
Lemma check_valid_loop_sanitize b s :
  (0 ≤ b)%Z → check_valid_loop b (sanitize s) = check_valid_loop b s.
Proof.
  revert b. induction s as [|c s IH]; intros b Hb; [done|].
  unfold sanitize in *. rewrite filter_cons.
  destruct (decide (c ∈ valid_chars)) as [Hin|Hout].
  - simpl.
    destruct ((if Ascii.eqb c "[" then b + 1
               else if Ascii.eqb c "]" then b - 1 else b) <? 0)%Z eqn:Hneg;
      [done|].
    apply IH. apply Z.ltb_ge in Hneg. done.
  - assert (c ≠ "["%char ∧ c ≠ "]"%char) as [H1 H2].
    { split; intros ->; apply Hout; unfold valid_chars; set_solver. }
    simpl. apply Ascii.eqb_neq in H1, H2. rewrite H1, H2.
    destruct (Z.ltb_spec b 0); [lia|]. by apply IH.
Qed.

(** The loop exits at the first prefix of negative depth, and returns
    the final depth when there is none. *)
Lemma check_valid_loop_spec b s :
  (0 ≤ b)%Z →
  match check_valid_loop b s with
  | Ok b' => (∀ n, 0 ≤ b + depth (take n s))%Z ∧ b' = (b + depth s)%Z
  | Raise e =>
      e = SystemExit (-1) msg_not_balanced ∧
      ∃ n, (b + depth (take n s) < 0)%Z
  end.
Proof.
  revert b. induction s as [|c s IH]; intros b Hb.
  - simpl. split; [|lia]. intros n. rewrite take_nil. simpl. lia.
  - cbn [check_valid_loop].
    set (b1 := if Ascii.eqb c "[" then (b + 1)%Z
               else if Ascii.eqb c "]" then (b - 1)%Z else b).
    assert (Hb1 : b1 = (b + (if Ascii.eqb c "[" then 1
                             else if Ascii.eqb c "]" then -1 else 0))%Z).
    { unfold b1. destruct (Ascii.eqb c "["), (Ascii.eqb c "]"); lia. }
    destruct (Z.ltb_spec b1 0) as [Hneg|Hpos].
    + split; [done|]. exists 1%nat. simpl take. rewrite take_0, depth_cons.
      simpl depth. lia.
    + specialize (IH b1 Hpos). destruct (check_valid_loop b1 s) as [b'|e].
      * destruct IH as [Hpre ->]. split.
        -- intros [|n]; [simpl; lia|].
           simpl take. rewrite depth_cons. specialize (Hpre n). lia.
        -- rewrite depth_cons. lia.
      * destruct IH as [-> [n Hn]]. split; [done|].
        exists (S n). simpl take. rewrite depth_cons. lia.
Qed.

(** *** The depth counter and the grammar of balanced texts *)

Lemma Closes_of_depth s k :
  (∀ n, 0 ≤ Z.of_nat k + depth (take n s))%Z →
  (Z.of_nat k + depth s = 0)%Z →
  Closes k s.
Proof.
  revert k. induction s as [|c s IH]; intros k Hpre Htot.
  - simpl in Htot. replace k with 0%nat by lia. constructor.
  - destruct (bracket_cases c) as [->|[->|[H1 H2]]].
    + apply Closes_open, IH.
      * intros n. specialize (Hpre (S n)). simpl take in Hpre.
        rewrite depth_open in Hpre. lia.
      * rewrite depth_open in Htot. lia.
    + pose proof (Hpre 1%nat) as H1. simpl take in H1.
      rewrite take_0, depth_close in H1. simpl in H1.
      destruct k as [|k]; [lia|].
      apply Closes_close, IH.
      * intros n. specialize (Hpre (S n)). simpl take in Hpre.
        rewrite depth_close in Hpre. lia.
      * rewrite depth_close in Htot. lia.
    + apply Closes_other; [done..|]. apply IH.
      * intros n. specialize (Hpre (S n)). simpl take in Hpre.
        by rewrite depth_other in Hpre.
      * by rewrite depth_other in Htot.
Qed.

(** A text that closes [k] pending loops is balanced when [k] is 0, and
    otherwise is a balanced text, the bracket closing the innermost
    pending loop, and a text closing the other [k - 1]. *)
Lemma Closes_split m :
  ∀ s k, (length s ≤ m)%nat → Closes k s →
    match k with
    | O => Balanced s
    | S k' => ∃ u r, s = u ++ "]"%char :: r ∧ Balanced u ∧ Closes k' r
    end.
Proof.
  induction m as [|m IH]; intros s k Hlen Hc.
  - destruct s; [|simpl in Hlen; lia].
    inversion Hc; subst. constructor.
  - inversion Hc as [|k0 c s0 H1 H2 Hs|k0 s0 Hs|k0 s0 Hs]; subst.
    + constructor.
    + simpl in Hlen. pose proof (IH s0 k ltac:(lia) Hs) as IHs.
      destruct k as [|k'].
      * by constructor.
      * destruct IHs as (u & r & -> & Hu & Hr).
        exists (c :: u), r. split; [done|]. split; [by constructor|done].
    + simpl in Hlen. pose proof (IH s0 (S k) ltac:(lia) Hs) as IHs.
      simpl in IHs. destruct IHs as (u & r & -> & Hu & Hr).
      assert (length r ≤ m)%nat as Hlr.
      { rewrite length_app in Hlen. simpl in Hlen. lia. }
      pose proof (IH r k Hlr Hr) as IHr.
      destruct k as [|k'].
      * by constructor.
      * destruct IHr as (u' & r' & -> & Hu' & Hr').
        exists ("["%char :: u ++ "]"%char :: u'), r'.
        split; [|split; [by constructor|done]].
        simpl. by rewrite <- app_assoc.
    + exists [], s0. split; [done|]. split; [constructor|done].
Qed.

Lemma Balanced_depth s :
  Balanced s → (∀ n, 0 ≤ depth (take n s))%Z ∧ depth s = 0%Z.
Proof.
  induction 1 as [|c s H1 H2 Hs [IHp IHt]|s r Hs [IHsp IHst] Hr [IHrp IHrt]].
  - split; [|done]. intros n. by rewrite take_nil.
  - split; [|by rewrite depth_other].
    intros [|n]; [done|]. simpl take. rewrite depth_other by done. apply IHp.
  - split.
    + intros [|n]; [done|]. simpl take.
      rewrite depth_open, take_app, depth_app.
      destruct (n - length s)%nat as [|j] eqn:Hj.
      * rewrite take_0. simpl depth. specialize (IHsp n). lia.
      * simpl take. rewrite depth_close, take_ge by lia.
        specialize (IHrp j). lia.
    + rewrite depth_open, depth_app, depth_close. lia.
Qed.

Lemma Balanced_iff_depth s :
  Balanced s ↔ (∀ n, 0 ≤ depth (take n s))%Z ∧ depth s = 0%Z.
Proof.
  split; [apply Balanced_depth|].
  intros [Hpre Htot].
  apply (Closes_split (length s) s 0 (le_n _)).
  apply Closes_of_depth; [intros n; specialize (Hpre n)|]; lia.
Qed.

(** What [check_valid] answers on a sanitised text, by the depth
    counter of the raw text. *)
Lemma check_valid_sanitize_cases s :
  match check_valid (sanitize s) with
  | Ok _ => (∀ n, 0 ≤ depth (take n s))%Z ∧ depth s = 0%Z
  | Raise e =>
      (e = SystemExit (-1) msg_not_balanced ∧
       ∃ n, (depth (take n s) < 0)%Z) ∨
      (e = SystemExit (-1) msg_not_enough_closing ∧
       (∀ n, 0 ≤ depth (take n s))%Z ∧ (0 < depth s)%Z)
  end.
Proof.
  unfold check_valid. rewrite check_valid_loop_sanitize by done.
  pose proof (check_valid_loop_spec 0 s ltac:(done)) as Hspec.
  destruct (check_valid_loop 0 s) as [b'|e]; simpl.
  - destruct Hspec as [Hpre ->].
    destruct (Z.ltb_spec 0 (0 + depth s)) as [Hpos|Hle].
    + right. split; [done|]. split; [|lia].
      intros n. specialize (Hpre n). lia.
    + split; [intros n; specialize (Hpre n); lia|].
      pose proof (Hpre (length s)) as Hall. rewrite take_ge in Hall by done.
      lia.
  - destruct Hspec as [-> [n Hn]]. left. split; [done|]. exists n. lia.
Qed.

Lemma check_valid_prefix_depth s n :
  check_valid s = Ok tt → (0 ≤ depth (take n s))%Z.
Proof.
  unfold check_valid.
  pose proof (check_valid_loop_spec 0 s ltac:(done)) as Hspec.
  destruct (check_valid_loop 0 s) as [b'|e]; simpl; [|done].
  destruct Hspec as [Hpre _]. intros _. specialize (Hpre n). lia.
Qed.

End Brackets.

(** C3. For every text, [check_valid] on the sanitised text exits with the
    too-many-closing message exactly when some prefix of the text has a
    negative depth counter (the loop exits at the first such prefix),
    exits with the not-enough-closing message exactly when no prefix is
    negative and the final depth is positive, and returns exactly when
    the text is balanced, whatever other characters stand between the
    brackets. *)
Theorem check_valid_sanitize_spec (raw : list ascii) :
  (check_valid (sanitize raw) = Raise (SystemExit (-1) msg_not_balanced)
   ↔ ∃ n, (depth (take n raw) < 0)%Z) ∧
  (check_valid (sanitize raw) = Raise (SystemExit (-1) msg_not_enough_closing)
   ↔ (∀ n, 0 ≤ depth (take n raw))%Z ∧ (0 < depth raw)%Z) ∧
  (check_valid (sanitize raw) = Ok tt ↔ Balanced raw).
Proof.
  pose proof (check_valid_sanitize_cases raw) as Hc.
  rewrite Balanced_iff_depth.
  destruct (check_valid (sanitize raw)) as [[]|e].
  - destruct Hc as [Hpre Htot]. split; [|split].
    + split; [done|]. intros [n Hn]. specialize (Hpre n). lia.
    + split; [done|]. intros [_ ?]. lia.
    + done.
  - destruct Hc as [[-> [n Hn]]|[-> [Hpre Hpos]]]; (split; [|split]).
    + split; [eauto|done].
    + split; [done|]. intros [Hpre _]. specialize (Hpre n). lia.
    + split; [done|]. intros [Hpre _]. specialize (Hpre n). lia.
    + split; [done|]. intros [n Hn]. specialize (Hpre n). lia.
    + done.
    + split; [done|]. intros [_ ?]. lia.
Qed.

(** ** The engine *)

Section EngineFacts.

Context {R P : Type} `{!ReadMode R} `{!PrintMode P}.

Implicit Types (bf : BrainFuck R P) (c : ascii).

Lemma dispatch_open bf :
  dispatch "[" bf = Ok (with_loop_stack (_pointer bf :: _loop_stack bf) bf).
Proof. done. Qed.

Lemma dispatch_close bf : dispatch "]" bf = _endloop bf.
Proof. done. Qed.

(** An instruction other than a bracket leaves program, pointer, counter
    and loop stack alone. *)
Lemma dispatch_other c bf bf' :
  c ≠ "["%char → c ≠ "]"%char → dispatch c bf = Ok bf' →
  _program bf' = _program bf ∧ _pointer bf' = _pointer bf ∧
  _counter bf' = _counter bf ∧ _loop_stack bf' = _loop_stack bf.
Proof.
  intros H1 H2. apply Ascii.eqb_neq in H1, H2.
  unfold dispatch. rewrite H1, H2.
  destruct (Ascii.eqb c "+").
  { intros (b & _ & [= <-])%bind_Ok. done. }
  destruct (Ascii.eqb c "-").
  { intros (b & _ & [= <-])%bind_Ok. done. }
  destruct (Ascii.eqb c ".").
  { unfold _dot. intros (v & _ & (pm & _ & [= <-])%bind_Ok)%bind_Ok. done. }
  destruct (Ascii.eqb c ",").
  { unfold _comma.
    intros (vr & _ & (b & _ & [= <-])%bind_Ok)%bind_Ok. done. }
  destruct (Ascii.eqb c "<"); [by intros [= <-]|].
  destruct (Ascii.eqb c ">"); [by intros [= <-]|].
  done.
Qed.

Lemma _endloop_Ok bf bf' :
  _endloop bf = Ok bf' →
  ∃ v, Band.get (_band bf) = Ok v ∧
       if (v =? 0)%Z
       then bf' = with_loop_stack (drop 1 (_loop_stack bf)) bf
       else ∃ start, _loop_stack bf !! 0%nat = Some start ∧
                     bf' = with_pointer start bf.
Proof.
  unfold _endloop. intros (v & Hv & Hk)%bind_Ok. exists v. split; [done|].
  destruct (v =? 0)%Z; [by injection Hk|].
  destruct (_loop_stack bf !! 0%nat) as [start|]; [|done].
  injection Hk as <-. eauto.
Qed.

(** No instruction touches the program or the counter. *)
Lemma dispatch_program_counter c bf bf' :
  dispatch c bf = Ok bf' →
  _program bf' = _program bf ∧ _counter bf' = _counter bf.
Proof.
  intros Hd. destruct (bracket_cases c) as [->|[->|[H1 H2]]].
  - rewrite dispatch_open in Hd. by injection Hd as <-.
  - rewrite dispatch_close in Hd.
    apply _endloop_Ok in Hd as (v & _ & Hv).
    destruct (v =? 0)%Z; [by subst|].
    destruct Hv as (start & _ & ->). done.
  - by destruct (dispatch_other c bf bf' H1 H2 Hd) as (? & _ & ? & _).
Qed.

Lemma terminal_cases bf : terminal bf ∨ ¬ terminal bf.
Proof. unfold terminal. lia. Qed.

(** The two ways out of [_do_step]. *)
Lemma _do_step_terminal bf : terminal bf → _do_step bf = Ok bf.
Proof.
  unfold terminal, _do_step. intros Ht.
  destruct (Nat.leb_spec (length (_program bf)) (_pointer bf)); [done|lia].
Qed.

Lemma _do_step_Ok bf bf' :
  ¬ terminal bf → _do_step bf = Ok bf' →
  ∃ c bf1, _program bf !! _pointer bf = Some c ∧ dispatch c bf = Ok bf1 ∧
           bf' = with_counter (_counter bf1 + 1)
                   (with_pointer (_pointer bf1 + 1) bf1).
Proof.
  unfold terminal, _do_step. intros Ht.
  destruct (Nat.leb_spec (length (_program bf)) (_pointer bf)); [lia|].
  destruct (_program bf !! _pointer bf) as [c|]; [|done].
  intros (bf1 & Hd & [= <-])%bind_Ok. eauto.
Qed.

Lemma _do_step_program bf bf' :
  _do_step bf = Ok bf' → _program bf' = _program bf.
Proof.
  intros Hs. destruct (terminal_cases bf) as [Ht|Ht].
  - rewrite _do_step_terminal in Hs by done. by injection Hs as <-.
  - apply _do_step_Ok in Hs as (c & bf1 & _ & Hd & ->); [|done].
    by apply dispatch_program_counter in Hd as [? _].
Qed.

Lemma _do_step_counter bf bf' :
  ¬ terminal bf → _do_step bf = Ok bf' → _counter bf' = (_counter bf + 1)%nat.
Proof.
  intros Ht Hs. apply _do_step_Ok in Hs as (c & bf1 & _ & Hd & ->); [|done].
  apply dispatch_program_counter in Hd as [_ Hc]. simpl. by rewrite Hc.
Qed.

Lemma run_steps_terminal n bf : terminal bf → run_steps n bf = Ok bf.
Proof.
  intros Ht. induction n as [|n IH]; [done|].
  simpl. by rewrite _do_step_terminal.
Qed.

End EngineFacts.

(** ** The closing bracket *)

Section EndLoop.

Context {R P : Type} `{!ReadMode R} `{!PrintMode P}.

Implicit Types (bf : BrainFuck R P).

(** C1, as the code has it. In every engine state whose current
    instruction is the closing bracket, whose current cell is not zero
    and whose loop stack has a top entry, one step leaves the loop stack
    unchanged and sets the pointer to one more than the top entry: the
    pointer is overwritten with the recorded position of the opening
    bracket and the increment common to all instructions is applied
    afterwards, so execution goes on right after the opening bracket. *)
Theorem endloop_jump bf (start : nat) (v : Z) :
  _program bf !! _pointer bf = Some "]"%char →
  Band.get (_band bf) = Ok v →
  v ≠ 0%Z →
  _loop_stack bf !! 0%nat = Some start →
  ∃ bf', _do_step bf = Ok bf' ∧
         _loop_stack bf' = _loop_stack bf ∧
         _pointer bf' = (start + 1)%nat.
Proof.
  intros Hc Hget Hv Htop.
  pose proof (lookup_lt_Some _ _ _ Hc) as Hlt.
  unfold _do_step.
  destruct (Nat.leb_spec (length (_program bf)) (_pointer bf)); [lia|].
  rewrite Hc, dispatch_close. unfold _endloop. rewrite Hget. simpl.
  apply Z.eqb_neq in Hv. rewrite Hv, Htop. simpl.
  eexists. split; [done|]. done.
Qed.

End EndLoop.

(** C1, as the claim has it, fails: in [at_endloop] the current
    instruction is the closing bracket, the current cell is 1 and the top
    of the loop stack is 0, yet the step leaves the pointer at 1. *)
Lemma endloop_jump_not_to_stack_top :
  _program at_endloop !! _pointer at_endloop = Some "]"%char ∧
  Band.get (_band at_endloop) = Ok 1%Z ∧
  _loop_stack at_endloop !! 0%nat = Some 0%nat ∧
  ∃ bf', _do_step at_endloop = Ok bf' ∧
         _loop_stack bf' = _loop_stack at_endloop ∧
         _pointer bf' = 1%nat ∧
         _pointer bf' ≠ 0%nat.
Proof.
  split; [done|]. split; [done|]. split; [done|].
  eexists. split; [vm_compute; reflexivity|]. simpl. done.
Qed.

Lemma endloop_jump_witness :
  ∃ bf', _do_step at_endloop = Ok bf' ∧
         _loop_stack bf' = _loop_stack at_endloop ∧
         _pointer bf' = (0 + 1)%nat.
Proof.
  apply (endloop_jump at_endloop 0%nat 1%Z).
  - reflexivity.
  - reflexivity.
  - lia.
  - reflexivity.
Defined.

(** ** Reset *)

Section ResetFacts.

Context {R P : Type} `{!ReadMode R} `{!PrintMode P}.

Implicit Types (bf : BrainFuck R P).

Lemma run_action_reset_loop_stack fuel bf :
  ∃ bf', run_action fuel AReset bf = Some (Ok bf') ∧
         _loop_stack bf' = _loop_stack bf.
Proof. simpl. eauto. Qed.

(** C5. Whatever the engine state, after the reset action the pointer is
    0, the counter is 0 and the band is the band of a new engine: a
    single zero cell, so every position reads as on a new tape. *)
Theorem reset_pointer_counter_band fuel bf :
  ∃ bf', run_action fuel AReset bf = Some (Ok bf') ∧
         _pointer bf' = 0%nat ∧
         _counter bf' = 0%nat ∧
         _band bf' = Band.new ∧
         (∀ k, Band.cell (_band bf') k = Band.cell Band.new k) ∧
         refines (_band bf') SpecTape.new.
Proof.
  simpl. eexists. split; [done|]. simpl.
  split; [done|]. split; [done|]. split; [done|]. split; [done|].
  apply refines_new.
Qed.

End ResetFacts.

(** C4 fails on the code: the reset branch of [run] sets pointer, counter
    and band but not [_loop_stack], which [__init__] does set to the empty
    list.  For the program [[+]], one step and then a reset leave the
    position of the opening bracket on the loop stack. *)
Theorem reset_leaves_loop_stack :
  ∃ bf0 bf1 bf2 : BrainFuck CharReadMode IntPrintMode,
    init (program_of "[+]") {| written := "" |} {| unread := [] |} = Ok bf0 ∧
    _loop_stack bf0 = [] ∧
    run_action 0 (AStep 1) bf0 = Some (Ok bf1) ∧
    run_action 0 AReset bf1 = Some (Ok bf2) ∧
    _pointer bf2 = 0%nat ∧
    _loop_stack bf2 = [0%nat].
Proof.
  do 3 eexists.
  split; [vm_compute; reflexivity|].
  split; [reflexivity|].
  split; [vm_compute; reflexivity|].
  split; [vm_compute; reflexivity|].
  split; reflexivity.
Qed.

(** ** Steps at and before the end of the program *)

Section StepCount.

Context {R P : Type} `{!ReadMode R} `{!PrintMode P}.

Implicit Types (bf : BrainFuck R P) (n k : nat).

Lemma stepsUntilTerminal_terminal bf k :
  terminal bf → stepsUntilTerminal bf k → k = 0%nat.
Proof.
  intros Ht [_ Hmin]. destruct k as [|k]; [done|].
  exfalso. apply (Hmin 0%nat bf); [lia|done|done].
Qed.

Lemma stepsUntilTerminal_step bf bf1 k :
  ¬ terminal bf → _do_step bf = Ok bf1 → stepsUntilTerminal bf k →
  ∃ k', k = S k' ∧ stepsUntilTerminal bf1 k'.
Proof.
  intros Ht Hs [(bfk & Hk & Htk) Hmin]. destruct k as [|k'].
  - simpl in Hk. injection Hk as <-. done.
  - exists k'. split; [done|]. split.
    + exists bfk. split; [|done]. simpl in Hk. by rewrite Hs in Hk.
    + intros j bfj Hj Hrun. apply (Hmin (S j) bfj); [lia|].
      simpl. by rewrite Hs.
Qed.

Lemma run_steps_counter n bf bf' k :
  run_steps n bf = Ok bf' → stepsUntilTerminal bf k →
  _counter bf' = (_counter bf + n `min` k)%nat.
Proof.
  revert bf k. induction n as [|n IH]; intros bf k Hrun Hk.
  - injection Hrun as <-. simpl. lia.
  - destruct (terminal_cases bf) as [Ht|Ht].
    + rewrite run_steps_terminal in Hrun by done. injection Hrun as <-.
      rewrite (stepsUntilTerminal_terminal bf k Ht Hk). lia.
    + simpl in Hrun. apply bind_Ok in Hrun as (bf1 & Hs & Hrun).
      destruct (stepsUntilTerminal_step bf bf1 k Ht Hs Hk) as (k' & -> & Hk').
      rewrite (IH bf1 k' Hrun Hk'), (_do_step_counter bf bf1 Ht Hs). lia.
Qed.

Lemma run_steps_counter_running n bf bf' :
  run_steps n bf = Ok bf' →
  (∀ j bfj, (j < n)%nat → run_steps j bf = Ok bfj → ¬ terminal bfj) →
  _counter bf' = (_counter bf + n)%nat.
Proof.
  revert bf. induction n as [|n IH]; intros bf Hrun Hnt.
  - injection Hrun as <-. lia.
  - simpl in Hrun. apply bind_Ok in Hrun as (bf1 & Hs & Hrun).
    assert (¬ terminal bf) as Ht by (apply (Hnt 0%nat bf); [lia|done]).
    rewrite (IH bf1 Hrun), (_do_step_counter bf bf1 Ht Hs); [lia|].
    intros j bfj Hj Hj'. apply (Hnt (S j) bfj); [lia|].
    simpl. by rewrite Hs.
Qed.

(** C8. From a state with step counter [c], a batch of [n ≥ 0] steps
    that returns leaves the counter at [c + min(n, k)], where [k] is the
    number of steps after which the pointer first is past the last
    instruction; when the pointer is not there before any of the [n]
    steps, the counter is [c + n]. *)
Theorem step_batch_counter fuel (n : Z) bf bf' :
  (0 ≤ n)%Z →
  run_action fuel (AStep n) bf = Some (Ok bf') →
  (∀ k, stepsUntilTerminal bf k →
        Z.of_nat (_counter bf') =
        (Z.of_nat (_counter bf) + n `min` Z.of_nat k)%Z) ∧
  ((∀ j bfj, (j < Z.to_nat n)%nat → run_steps j bf = Ok bfj → ¬ terminal bfj) →
   Z.of_nat (_counter bf') = (Z.of_nat (_counter bf) + n)%Z).
Proof.
  intros Hn [= Hrun]. split.
  - intros k Hk. rewrite (run_steps_counter _ _ _ _ Hrun Hk). lia.
  - intros Hnt. rewrite (run_steps_counter_running _ _ _ Hrun Hnt). lia.
Qed.

(** C9. Once the pointer equals the length of the program, any number of
    steps returns the very same state: pointer, counter, band, loop
    stack and both ports are as before, so no port was called. *)
Theorem terminal_steps_change_nothing bf n :
  _pointer bf = length (_program bf) →
  _do_step bf = Ok bf ∧ run_steps n bf = Ok bf.
Proof.
  intros Hp. assert (terminal bf) as Ht by (unfold terminal; lia).
  split; [by apply _do_step_terminal | by apply run_steps_terminal].
Qed.

End StepCount.

Lemma move_cell_stepsUntilTerminal : stepsUntilTerminal move_cell 16.
Proof.
  split.
  - eexists. split; [vm_compute; reflexivity|]. unfold terminal. simpl. lia.
  - intros j bfj Hj Hrun.
    do 16 (destruct j as [|j];
           [vm_compute in Hrun; injection Hrun as <-;
            unfold terminal; simpl; lia|]).
    lia.
Defined.

Lemma step_batch_counter_witness :
  (0 ≤ 20)%Z ∧
  run_action 0 (AStep 20) move_cell = Some (Ok move_cell_done) ∧
  stepsUntilTerminal move_cell 16 ∧
  Z.of_nat (_counter move_cell_done) =
  (Z.of_nat (_counter move_cell) + 20 `min` Z.of_nat 16)%Z.
Proof.
  assert (Hn : (0 ≤ 20)%Z) by lia.
  assert (Hrun : run_action 0 (AStep 20) move_cell = Some (Ok move_cell_done))
    by (vm_compute; reflexivity).
  split; [exact Hn|]. split; [exact Hrun|].
  split; [exact move_cell_stepsUntilTerminal|].
  exact (proj1 (step_batch_counter 0 20 move_cell move_cell_done Hn Hrun)
           16%nat move_cell_stepsUntilTerminal).
Defined.

Lemma terminal_steps_change_nothing_witness :
  _do_step at_end = Ok at_end ∧ run_steps 5 at_end = Ok at_end.
Proof.
  apply (terminal_steps_change_nothing at_end 5). reflexivity.
Defined.

(** ** The loop stack during forward execution *)

Section ForwardExecution.

Context {R P : Type} `{!ReadMode R} `{!PrintMode P}.

Implicit Types (bf : BrainFuck R P) (program : list ascii).

Lemma depth_take_S program (p : nat) (c : ascii) :
  program !! p = Some c →
  depth (take (S p) program) = (depth (take p program) + depth [c])%Z.
Proof. intros Hc. by rewrite (take_S_r _ _ _ Hc), depth_app. Qed.

Lemma engine_inv_init raw (pm : P) (rm : R) bf :
  init raw pm rm = Ok bf → engine_inv bf.
Proof.
  unfold init. intros ([] & Hv & [= <-])%bind_Ok.
  split; [done|]. split; [done|]. done.
Qed.

Lemma engine_inv_step bf bf' :
  engine_inv bf → _do_step bf = Ok bf' → engine_inv bf'.
Proof.
  intros (Hv & Hst & Hd) Hs.
  destruct (terminal_cases bf) as [Ht|Ht].
  { rewrite _do_step_terminal in Hs by done. by injection Hs as <-. }
  apply _do_step_Ok in Hs as (c & bf1 & Hc & Hdisp & ->); [|done].
  pose proof (depth_take_S _ _ _ Hc) as HS.
  pose proof (check_valid_prefix_depth _ (S (_pointer bf)) Hv) as Hpre.
  unfold engine_inv. simpl. rewrite Nat.add_1_r.
  destruct (bracket_cases c) as [->|[->|[H1 H2]]].
  - rewrite dispatch_open in Hdisp. injection Hdisp as <-. simpl.
    split; [done|]. split; [done|].
    rewrite HS. simpl depth. lia.
  - rewrite dispatch_close in Hdisp.
    apply _endloop_Ok in Hdisp as (v & _ & Hcase).
    simpl depth in HS.
    destruct (_loop_stack bf) as [|start rest] eqn:Hstack;
      [simpl in Hd; lia|].
    destruct Hst as (Hstart & Hdstart & Hrest).
    destruct (v =? 0)%Z.
    + subst bf1. simpl. rewrite drop_0.
      split; [done|]. split; [done|]. simpl in Hd. lia.
    + destruct Hcase as (start' & [= <-] & ->). simpl. rewrite Hstack.
      split; [done|]. split; [done|].
      rewrite (depth_take_S _ _ _ Hstart). simpl. lia.
  - destruct (dispatch_other c bf bf1 H1 H2 Hdisp) as (-> & -> & _ & ->).
    split; [done|]. split; [done|].
    rewrite HS, depth_other by done. simpl. lia.
Qed.

Lemma engine_inv_steps_to bf bf' :
  engine_inv bf → steps_to bf bf' → engine_inv bf'.
Proof.
  intros Hinv Hsteps. induction Hsteps as [|bf bf' bf'' _ IH Hs]; [done|].
  apply (engine_inv_step bf' bf''); [by apply IH | done].
Qed.

(** C6. For a program that passed the check at construction, in every
    state reached from the new engine by steps that return, a current
    instruction that is the closing bracket finds the loop stack
    non-empty: index 0 of the stack exists. *)
Theorem endloop_stack_nonempty raw (pm : P) (rm : R) bf0 bf :
  init raw pm rm = Ok bf0 →
  steps_to bf0 bf →
  _program bf !! _pointer bf = Some "]"%char →
  _loop_stack bf ≠ [] ∧ ∃ start, _loop_stack bf !! 0%nat = Some start.
Proof.
  intros Hinit Hsteps Hc.
  apply engine_inv_init in Hinit.
  destruct (engine_inv_steps_to _ _ Hinit Hsteps) as (Hv & _ & Hd).
  pose proof (depth_take_S _ _ _ Hc) as HS. simpl depth in HS.
  pose proof (check_valid_prefix_depth _ (S (_pointer bf)) Hv) as Hpre.
  destruct (_loop_stack bf) as [|start rest]; [simpl in Hd; lia|].
  split; [done|]. by exists start.
Qed.

(** C10. The program [[->+<]], started at its first instruction with 3
    in the current cell and 0 in the cell to its right, runs to the end
    of the program: stepping until the pointer reaches the program
    length stops, with 0 in the current cell, 3 in the cell to its
    right and the pointer at the program length. *)
Theorem loop_moves_cell bf :
  _program bf = program_of "[->+<]" →
  _pointer bf = 0%nat →
  Band.cell (_band bf) 0 = 3%Z →
  Band.cell (_band bf) 1 = 0%Z →
  ∃ fuel bf',
    run_action fuel (AUntil (Z.of_nat (length (_program bf)))) bf
      = Some (Ok bf') ∧
    Band.cell (_band bf') 0 = 0%Z ∧
    Band.cell (_band bf') 1 = 3%Z ∧
    _pointer bf' = length (_program bf').
Proof.
  destruct bf as [program p c stack [l r] pm rm]. simpl.
  intros -> -> H0 H1.
  destruct r as [|x [|y r]]; vm_compute in H0, H1; try discriminate; subst.
  - exists 16%nat. eexists. split; [vm_compute; reflexivity|]. by vm_compute.
  - exists 16%nat. eexists. split; [vm_compute; reflexivity|]. by vm_compute.
Qed.

End ForwardExecution.

Lemma endloop_stack_nonempty_witness :
  _loop_stack at_endloop ≠ [] ∧
  ∃ start, _loop_stack at_endloop !! 0%nat = Some start.
Proof.
  refine (endloop_stack_nonempty (program_of "[+]")
            {| written := "" |} {| unread := [] |} _ at_endloop _ _ _).
  - vm_compute. reflexivity.
  - eapply steps_to_step; [eapply steps_to_step; [apply steps_to_refl|]|];
      vm_compute; reflexivity.
  - reflexivity.
Defined.

Lemma loop_moves_cell_witness :
  ∃ fuel bf',
    run_action fuel (AUntil (Z.of_nat (length (_program move_cell)))) move_cell
      = Some (Ok bf') ∧
    Band.cell (_band bf') 0 = 0%Z ∧
    Band.cell (_band bf') 1 = 3%Z ∧
    _pointer bf' = length (_program bf').
Proof.
  apply (loop_moves_cell move_cell); reflexivity.
Defined.

(** * Further properties *)

(** ** Instructions one by one *)

Section DispatchFacts.

Context {R P : Type} `{!ReadMode R} `{!PrintMode P}.

Implicit Types (bf : BrainFuck R P) (c : ascii).

Lemma valid_chars_cases c :
  c ∈ valid_chars →
  c = "+"%char ∨ c = "-"%char ∨ c = "."%char ∨ c = ","%char ∨
  c = "<"%char ∨ c = ">"%char ∨ c = "["%char ∨ c = "]"%char.
Proof.
  unfold valid_chars. rewrite !elem_of_cons, elem_of_nil. tauto.
Qed.

(** What a dispatch that returns has done, instruction by instruction. *)
Lemma dispatch_cases c bf bf1 :
  dispatch c bf = Ok bf1 →
  (c = "+"%char ∧ ∃ b, Band.plus (_band bf) = Ok b ∧ bf1 = with_band b bf) ∨
  (c = "-"%char ∧ ∃ b, Band.minus (_band bf) = Ok b ∧ bf1 = with_band b bf) ∨
  (c = "."%char ∧ ∃ v pm, Band.get (_band bf) = Ok v ∧
                          dot v (_print_mode bf) = Ok pm ∧
                          bf1 = with_print_mode pm bf) ∨
  (c = ","%char ∧ ∃ v rm b, comma (_read_mode bf) = Ok (v, rm) ∧
                            Band.set v (_band bf) = Ok b ∧
                            bf1 = with_band b (with_read_mode rm bf)) ∨
  (c = "<"%char ∧ bf1 = with_band (Band.left (_band bf)) bf) ∨
  (c = ">"%char ∧ bf1 = with_band (Band.right (_band bf)) bf) ∨
  (c = "["%char ∧ bf1 = with_loop_stack (_pointer bf :: _loop_stack bf) bf) ∨
  (c = "]"%char ∧ _endloop bf = Ok bf1).
Proof.
  unfold dispatch.
  destruct (Ascii.eqb c "+") eqn:E1.
  { apply Ascii.eqb_eq in E1. intros (b & Hb & [= <-])%bind_Ok. left. eauto. }
  destruct (Ascii.eqb c "-") eqn:E2.
  { apply Ascii.eqb_eq in E2. intros (b & Hb & [= <-])%bind_Ok.
    right; left. eauto. }
  destruct (Ascii.eqb c ".") eqn:E3.
  { apply Ascii.eqb_eq in E3. unfold _dot.
    intros (v & Hv & (pm & Hpm & [= <-])%bind_Ok)%bind_Ok.
    right; right; left. eauto 10. }
  destruct (Ascii.eqb c ",") eqn:E4.
  { apply Ascii.eqb_eq in E4. unfold _comma.
    intros ([v rm] & Hc & (b & Hb & [= <-])%bind_Ok)%bind_Ok.
    right; right; right; left. split; [done|]. exists v, rm, b. done. }
  destruct (Ascii.eqb c "<") eqn:E5.
  { apply Ascii.eqb_eq in E5. intros [= <-]. do 4 right. left. done. }
  destruct (Ascii.eqb c ">") eqn:E6.
  { apply Ascii.eqb_eq in E6. intros [= <-]. do 5 right. left. done. }
  destruct (Ascii.eqb c "[") eqn:E7.
  { apply Ascii.eqb_eq in E7. intros [= <-]. do 6 right. left. done. }
  destruct (Ascii.eqb c "]") eqn:E8; [|done].
  apply Ascii.eqb_eq in E8. intros Hend. do 7 right. done.
Qed.

(** A step before the end of the program, unfolded. *)
Lemma _do_step_at c bf :
  _program bf !! _pointer bf = Some c →
  _do_step bf =
  (bf1 <- dispatch c bf ;;
   Ok (with_counter (_counter bf1 + 1) (with_pointer (_pointer bf1 + 1) bf1))).
Proof.
  intros Hc. pose proof (lookup_lt_Some _ _ _ Hc) as Hlt.
  unfold _do_step.
  destruct (Nat.leb_spec (length (_program bf)) (_pointer bf)); [lia|].
  by rewrite Hc.
Qed.

(** X18. The opening bracket never tests the current cell: whatever the
    cell holds, zero included, a step at an opening bracket records its
    position on the loop stack and goes on with the next instruction, so
    the body of every loop is run at least once. *)
Theorem open_bracket_always_enters bf :
  _program bf !! _pointer bf = Some "["%char →
  _do_step bf =
  Ok (mkBrainFuck (_program bf) (_pointer bf + 1) (_counter bf + 1)
        (_pointer bf :: _loop_stack bf) (_band bf)
        (_print_mode bf) (_read_mode bf)).
Proof. intros Hc. by rewrite (_do_step_at _ _ Hc), dispatch_open. Qed.

(** X16. A step that returns leaves alone what its instruction has no
    business with: the print mode unless the instruction is [.], the read
    mode unless it is [,], the band on [.], [[] and []], the loop stack
    unless the instruction is a bracket; the program always. *)
Theorem step_frame c bf bf' :
  _program bf !! _pointer bf = Some c →
  _do_step bf = Ok bf' →
  _program bf' = _program bf ∧
  (c ≠ "."%char → _print_mode bf' = _print_mode bf) ∧
  (c ≠ ","%char → _read_mode bf' = _read_mode bf) ∧
  (c = "."%char ∨ c = "["%char ∨ c = "]"%char → _band bf' = _band bf) ∧
  (c ≠ "["%char → c ≠ "]"%char → _loop_stack bf' = _loop_stack bf).
Proof.
  intros Hc Hs. rewrite (_do_step_at _ _ Hc) in Hs.
  apply bind_Ok in Hs as (bf1 & Hd & [= <-]). simpl.
  apply dispatch_cases in Hd
    as [[-> (b & _ & ->)]|[[-> (b & _ & ->)]|[[-> (v & pm & _ & _ & ->)]|
       [[-> (v & rm & b & _ & _ & ->)]|[[-> ->]|[[-> ->]|[[-> ->]|
       [-> Hend]]]]]]]]; simpl;
    try (repeat split; (done || (intros; intuition discriminate))).
  apply _endloop_Ok in Hend as (v & _ & Hv).
  destruct (v =? 0)%Z; [subst|destruct Hv as (start & _ & ->)]; simpl;
    repeat split; (done || (intros; intuition discriminate)).
Qed.

End DispatchFacts.

(** ** Balanced texts and segments of a program *)

Section Segments.

Implicit Types (program s r : list ascii) (c : ascii) (p start : nat).

Lemma Balanced_app s r : Balanced s → Balanced r → Balanced (s ++ r).
Proof.
  intros Hs Hr. induction Hs as [|c s H1 H2 Hs IH|s1 s2 Hs1 IH1 Hs2 IH2].
  - done.
  - simpl. by constructor.
  - simpl. rewrite <- app_assoc. simpl. by constructor.
Qed.

Lemma Balanced_one c : c ≠ "["%char → c ≠ "]"%char → Balanced [c].
Proof. intros H1 H2. constructor; [done..|constructor]. Qed.

Lemma Balanced_wrap s : Balanced s → Balanced ("["%char :: s ++ ["]"%char]).
Proof. intros Hs. constructor; [done|constructor]. Qed.

Lemma segment_empty p program : segment p p program = [].
Proof. unfold segment. by rewrite Nat.sub_diag. Qed.

Lemma segment_0 p program : segment 0 p program = take p program.
Proof. unfold segment. by rewrite Nat.sub_0_r. Qed.

Lemma segment_split (a b e : nat) program :
  (a ≤ b)%nat → (b ≤ e)%nat →
  segment a e program = segment a b program ++ segment b e program.
Proof.
  intros Hab Hbe. unfold segment.
  replace (e - a)%nat with ((b - a) + (e - b))%nat by lia.
  rewrite <- take_take_drop, drop_drop.
  by replace (a + (b - a))%nat with b by lia.
Qed.

Lemma segment_one p c program :
  program !! p = Some c → segment p (S p) program = [c].
Proof.
  intros Hc. unfold segment.
  replace (S p - p)%nat with 1%nat by lia.
  pose proof (lookup_drop program p 0) as Hd.
  rewrite Nat.add_0_r, Hc in Hd.
  destruct (drop p program) as [|x l]; [done|].
  by injection Hd as ->.
Qed.

Lemma segment_snoc (a p : nat) c program :
  (a ≤ p)%nat → program !! p = Some c →
  segment a (S p) program = segment a p program ++ [c].
Proof.
  intros Ha Hc.
  by rewrite (segment_split a p (S p)), (segment_one p c) by (done || lia).
Qed.

(** *** The loop stack against the brackets of the program *)

Lemma stack_matched_other program stack p c :
  program !! p = Some c → c ≠ "["%char → c ≠ "]"%char →
  stack_matched program stack p → stack_matched program stack (S p).
Proof.
  intros Hc H1 H2. destruct stack as [|start rest]; simpl.
  - intros Hb. rewrite (segment_snoc 0 p c) by (done || lia).
    apply Balanced_app; [done|]. by apply Balanced_one.
  - intros (Hlt & Hstart & Hb & Hrest).
    split; [lia|]. split; [done|]. split; [|done].
    rewrite (segment_snoc (S start) p c) by (done || lia).
    apply Balanced_app; [done|]. by apply Balanced_one.
Qed.

Lemma stack_matched_open program stack p :
  program !! p = Some "["%char →
  stack_matched program stack p → stack_matched program (p :: stack) (S p).
Proof.
  intros Hc Hm. simpl. split; [lia|]. split; [done|]. split; [|done].
  rewrite segment_empty. constructor.
Qed.

Lemma segment_close (a start p : nat) program :
  (a ≤ start)%nat → (start < p)%nat →
  program !! start = Some "["%char → program !! p = Some "]"%char →
  Balanced (segment a start program) →
  Balanced (segment (S start) p program) →
  Balanced (segment a (S p) program).
Proof.
  intros Ha Hlt Hstart Hc Hb1 Hb2.
  rewrite (segment_split a start (S p)) by lia.
  rewrite (segment_split start (S start) (S p)) by lia.
  rewrite (segment_one start "[") by done.
  rewrite (segment_snoc (S start) p "]") by (done || lia).
  apply Balanced_app; [done|]. simpl. by apply Balanced_wrap.
Qed.

Lemma stack_matched_close program start rest p :
  program !! p = Some "]"%char →
  stack_matched program (start :: rest) p →
  stack_matched program rest (S p).
Proof.
  intros Hc (Hlt & Hstart & Hb & Hrest). destruct rest as [|start' rest'].
  - simpl in *. by apply (segment_close 0 start p); [lia|..].
  - simpl in *. destruct Hrest as (Hlt' & Hstart' & Hb' & Hrest').
    split; [lia|]. split; [done|]. split; [|done].
    by apply (segment_close (S start') start p); [lia|..].
Qed.

Lemma stack_matched_jump program start rest p :
  stack_matched program (start :: rest) p →
  stack_matched program (start :: rest) (S start).
Proof.
  intros (Hlt & Hstart & Hb & Hrest). simpl.
  split; [lia|]. split; [done|]. split; [|done].
  rewrite segment_empty. constructor.
Qed.

(** With no bracket open before a closing bracket, the prefix that ends
    in it has negative depth: a checked program has no such place. *)
Lemma stack_matched_nil_close program p :
  check_valid program = Ok tt →
  program !! p = Some "]"%char →
  ¬ stack_matched program [] p.
Proof.
  intros Hv Hc Hb. simpl in Hb. rewrite segment_0 in Hb.
  apply Balanced_depth in Hb as [_ Hd].
  pose proof (check_valid_prefix_depth _ (S p) Hv) as Hpre.
  rewrite (take_S_r _ _ _ Hc), depth_app, Hd in Hpre. simpl in Hpre. lia.
Qed.

End Segments.

(** ** The engine under any driver *)

Section Driven.

Context {R P : Type} `{!ReadMode R} `{!PrintMode P}.

Implicit Types (bf : BrainFuck R P) (c : ascii).

Lemma Band_plus_rband b b' : Band.plus b = Ok b' → Band.rband b' ≠ [].
Proof.
  unfold Band.plus. destruct (Band.rband b); [done|]. by intros [= <-].
Qed.

Lemma Band_minus_rband b b' : Band.minus b = Ok b' → Band.rband b' ≠ [].
Proof.
  unfold Band.minus. destruct (Band.rband b); [done|]. by intros [= <-].
Qed.

Lemma Band_set_rband v b b' : Band.set v b = Ok b' → Band.rband b' ≠ [].
Proof.
  unfold Band.set. destruct (Band.rband b); [done|]. by intros [= <-].
Qed.

Lemma sanitize_valid (raw : list ascii) :
  Forall (λ c, c ∈ valid_chars) (sanitize raw).
Proof.
  apply Forall_forall. intros c Hc.
  unfold sanitize in Hc. by apply list_elem_of_filter in Hc as [? _].
Qed.

Lemma engine_wf_init raw (pm : P) (rm : R) bf :
  init raw pm rm = Ok bf → engine_wf bf ∧ _program bf = sanitize raw.
Proof.
  unfold init. intros ([] & Hv & [= <-])%bind_Ok. split; [|done].
  split; [apply sanitize_valid|]. split; [done|]. split; [simpl; lia|].
  split; [done|]. exists [], []. split; [done|]. simpl.
  rewrite segment_empty. constructor.
Qed.

(** An instruction that is no bracket: the pointer moves on, the stack
    stays. *)
Lemma engine_wf_other bf c (cnt : nat) (b : Band.t) (pm : P) (rm : R) :
  engine_wf bf →
  _program bf !! _pointer bf = Some c →
  c ≠ "["%char → c ≠ "]"%char →
  Band.rband b ≠ [] →
  engine_wf (mkBrainFuck (_program bf) (_pointer bf + 1) cnt
               (_loop_stack bf) b pm rm).
Proof.
  intros (Hval & Hv & Hle & Hr & fresh & stale & Hst & Hm) Hc H1 H2 Hb.
  pose proof (lookup_lt_Some _ _ _ Hc) as Hlt.
  split; [done|]. split; [done|]. split; [simpl; lia|]. split; [done|].
  exists fresh, stale. split; [done|]. simpl. rewrite Nat.add_1_r.
  by apply (stack_matched_other _ _ _ c).
Qed.

Lemma engine_wf_step bf bf' :
  engine_wf bf → _do_step bf = Ok bf' → engine_wf bf'.
Proof.
  intros Hwf Hs. destruct (terminal_cases bf) as [Ht|Ht].
  { rewrite _do_step_terminal in Hs by done. by injection Hs as <-. }
  apply _do_step_Ok in Hs as (c & bf1 & Hc & Hd & ->); [|done].
  pose proof Hwf as (Hval & Hv & Hle & Hr & fresh & stale & Hst & Hm).
  pose proof (lookup_lt_Some _ _ _ Hc) as Hlt.
  apply dispatch_cases in Hd
    as [[-> (b & Hb & ->)]|[[-> (b & Hb & ->)]|[[-> (v & pm & _ & _ & ->)]|
       [[-> (v & rm & b & _ & Hb & ->)]|[[-> ->]|[[-> ->]|[[-> ->]|
       [-> Hend]]]]]]]].
  - apply (engine_wf_other bf "+"); [done..|]. by apply Band_plus_rband in Hb.
  - apply (engine_wf_other bf "-"); [done..|]. by apply Band_minus_rband in Hb.
  - by apply (engine_wf_other bf ".").
  - apply (engine_wf_other bf ","); [done..|]. by apply Band_set_rband in Hb.
  - apply (engine_wf_other bf "<"); [done..|]. apply Band_left_rband.
  - apply (engine_wf_other bf ">"); [done..|]. apply Band_right_rband.
  - split; [done|]. split; [done|]. split; [simpl; lia|]. split; [done|].
    exists (_pointer bf :: fresh), stale. simpl. split; [by rewrite Hst|].
    rewrite Nat.add_1_r. split; [lia|]. split; [done|]. split; [|done].
    rewrite segment_empty. constructor.
  - destruct fresh as [|start rest];
      [by destruct (stack_matched_nil_close _ _ Hv Hc)|].
    apply _endloop_Ok in Hend as (v & _ & Hcase).
    destruct (v =? 0)%Z.
    + subst bf1. split; [done|]. split; [done|]. split; [simpl; lia|].
      split; [done|]. exists rest, stale. simpl. rewrite Hst. simpl.
      rewrite drop_0. split; [done|]. rewrite Nat.add_1_r.
      by apply (stack_matched_close _ start).
    + destruct Hcase as (start' & Htop & ->).
      rewrite Hst in Htop. injection Htop as <-.
      pose proof Hm as (_ & Hstart & _).
      pose proof (lookup_lt_Some _ _ _ Hstart) as Hlts.
      split; [done|]. split; [done|]. split; [simpl; lia|]. split; [done|].
      exists (start :: rest), stale. split; [done|].
      cbn [_pointer _program with_counter with_pointer].
      rewrite Nat.add_1_r. by apply (stack_matched_jump _ _ _ (_pointer bf)).
Qed.

Lemma engine_wf_reset fuel bf bf' :
  engine_wf bf → run_action fuel AReset bf = Some (Ok bf') → engine_wf bf'.
Proof.
  intros (Hval & Hv & Hle & Hr & fresh & stale & Hst & Hm) [= <-].
  split; [done|]. split; [done|]. split; [simpl; lia|]. split; [done|].
  exists [], (_loop_stack bf). split; [done|]. simpl.
  rewrite segment_empty. constructor.
Qed.

Lemma engine_wf_driven bf bf' :
  engine_wf bf → driven_to bf bf' →
  engine_wf bf' ∧ _program bf' = _program bf.
Proof.
  intros Hwf Hd.
  induction Hd as [|bf bf' bf'' _ IH Hs|fuel bf bf' bf'' _ IH Hr].
  - done.
  - destruct (IH Hwf) as [Hwf' Hp]. split.
    + by apply (engine_wf_step bf' bf'').
    + by rewrite (_do_step_program _ _ Hs).
  - destruct (IH Hwf) as [Hwf' Hp]. split.
    + by apply (engine_wf_reset fuel bf' bf'').
    + by injection Hr as <-.
Qed.

(** X7. Under any driver (steps and resets in any order), the engine built
    from a text keeps the sanitised text as its program, its pointer never
    goes past the position just after the last instruction, and the list
    with the current cell is never empty. *)
Theorem driven_pointer_within raw (pm : P) (rm : R) bf0 bf :
  init raw pm rm = Ok bf0 →
  driven_to bf0 bf →
  _program bf = sanitize raw ∧
  (_pointer bf ≤ length (_program bf))%nat ∧
  Band.rband (_band bf) ≠ [].
Proof.
  intros [Hwf0 Hp0]%engine_wf_init Hd.
  destruct (engine_wf_driven _ _ Hwf0 Hd) as [(_ & _ & Hle & Hr & _) Hp].
  split; [by rewrite Hp|]. done.
Qed.

(** X6. Under any driver, resets included, when the current instruction
    is a closing bracket the top of the loop stack is the position of the
    opening bracket that matches it: it lies before the pointer, holds an
    opening bracket, and the text between the two is balanced. *)
Theorem endloop_top_is_matching_bracket raw (pm : P) (rm : R) bf0 bf :
  init raw pm rm = Ok bf0 →
  driven_to bf0 bf →
  _program bf !! _pointer bf = Some "]"%char →
  ∃ start,
    _loop_stack bf !! 0%nat = Some start ∧
    (start < _pointer bf)%nat ∧
    _program bf !! start = Some "["%char ∧
    Balanced (segment (S start) (_pointer bf) (_program bf)).
Proof.
  intros [Hwf0 _]%engine_wf_init Hd Hc.
  destruct (engine_wf_driven _ _ Hwf0 Hd)
    as [(_ & Hv & _ & _ & fresh & stale & Hst & Hm) _].
  destruct fresh as [|start rest];
    [by destruct (stack_matched_nil_close _ _ Hv Hc)|].
  destruct Hm as (Hlt & Hstart & Hb & _).
  exists start. by rewrite Hst.
Qed.

(** X5. Under any driver, resets included, the engine itself never
    raises: a step fails only when its instruction is [,] and the read
    mode fails, or when it is [.] and the print mode fails, and then with
    the failure of that port. No [IndexError] comes from the band or the
    loop stack and no [KeyError] from the dispatch. *)
Theorem step_fails_only_in_ports raw (pm : P) (rm : R) bf0 bf e :
  init raw pm rm = Ok bf0 →
  driven_to bf0 bf →
  _do_step bf = Raise e →
  (_program bf !! _pointer bf = Some ","%char ∧
   comma (_read_mode bf) = Raise e) ∨
  (_program bf !! _pointer bf = Some "."%char ∧
   ∃ v, Band.get (_band bf) = Ok v ∧ dot v (_print_mode bf) = Raise e).
Proof.
  intros [Hwf0 _]%engine_wf_init Hd Hs.
  destruct (engine_wf_driven _ _ Hwf0 Hd)
    as [(Hval & Hv & _ & Hr & fresh & stale & Hst & Hm) _].
  destruct (terminal_cases bf) as [Ht|Ht].
  { by rewrite _do_step_terminal in Hs. }
  destruct (lookup_lt_is_Some_2 (_program bf) (_pointer bf)) as [c Hc].
  { unfold terminal in Ht. lia. }
  rewrite (_do_step_at _ _ Hc) in Hs.
  assert (c ∈ valid_chars) as Hin.
  { rewrite Forall_forall in Hval. apply Hval.
    by apply list_elem_of_lookup_2 in Hc. }
  destruct (Band_get_total _ Hr) as [v Hget].
  apply valid_chars_cases in Hin as [->|[->|[->|[->|[->|[->|[->| ->]]]]]]];
    unfold dispatch in Hs; simpl in Hs.
  - by destruct (Band_plus_total _ Hr) as (b & Hb & _); rewrite Hb in Hs.
  - by destruct (Band_minus_total _ Hr) as (b & Hb & _); rewrite Hb in Hs.
  - right. split; [done|]. exists v. split; [done|].
    unfold _dot in Hs. rewrite Hget in Hs. simpl in Hs.
    destruct (dot v (_print_mode bf)); [done|]. by injection Hs as ->.
  - left. split; [done|]. unfold _comma in Hs.
    destruct (comma (_read_mode bf)) as [[v' rm']|e']; simpl in Hs.
    + by destruct (Band_set_total v' _ Hr) as (b & Hb & _); rewrite Hb in Hs.
    + by injection Hs as ->.
  - done.
  - done.
  - done.
  - destruct fresh as [|start rest];
      [by destruct (stack_matched_nil_close _ _ Hv Hc)|].
    unfold _endloop in Hs. rewrite Hget, Hst in Hs. simpl in Hs.
    by destruct (v =? 0)%Z.
Qed.

End Driven.

Lemma open_bracket_always_enters_witness :
  _do_step move_cell =
  Ok (mkBrainFuck (_program move_cell) (_pointer move_cell + 1)
        (_counter move_cell + 1)
        (_pointer move_cell :: _loop_stack move_cell) (_band move_cell)
        (_print_mode move_cell) (_read_mode move_cell)).
Proof. apply (open_bracket_always_enters move_cell). reflexivity. Defined.

Lemma step_frame_witness :
  ∃ bf',
    _do_step at_endloop = Ok bf' ∧
    _program bf' = _program at_endloop ∧
    ("]"%char ≠ "."%char → _print_mode bf' = _print_mode at_endloop) ∧
    ("]"%char ≠ ","%char → _read_mode bf' = _read_mode at_endloop) ∧
    ("]"%char = "."%char ∨ "]"%char = "["%char ∨ "]"%char = "]"%char →
     _band bf' = _band at_endloop) ∧
    ("]"%char ≠ "["%char → "]"%char ≠ "]"%char →
     _loop_stack bf' = _loop_stack at_endloop).
Proof.
  eexists. split; [vm_compute; reflexivity|].
  apply (step_frame "]"%char at_endloop).
  - reflexivity.
  - vm_compute. reflexivity.
Defined.

Lemma at_endloop_driven :
  ∃ bf0, init (program_of "[+]") {| written := "" |} {| unread := [] |} = Ok bf0 ∧
         driven_to bf0 at_endloop.
Proof.
  eexists. split; [vm_compute; reflexivity|].
  eapply driven_to_step; [eapply driven_to_step; [apply driven_to_refl|]|];
    vm_compute; reflexivity.
Defined.

Lemma driven_pointer_within_witness :
  _program at_endloop = sanitize (program_of "[+]") ∧
  (_pointer at_endloop ≤ length (_program at_endloop))%nat ∧
  Band.rband (_band at_endloop) ≠ [].
Proof.
  destruct at_endloop_driven as (bf0 & Hinit & Hd).
  exact (driven_pointer_within _ _ _ bf0 at_endloop Hinit Hd).
Defined.

Lemma endloop_top_is_matching_bracket_witness :
  ∃ start,
    _loop_stack at_endloop !! 0%nat = Some start ∧
    (start < _pointer at_endloop)%nat ∧
    _program at_endloop !! start = Some "["%char ∧
    Balanced (segment (S start) (_pointer at_endloop) (_program at_endloop)).
Proof.
  destruct at_endloop_driven as (bf0 & Hinit & Hd).
  exact (endloop_top_is_matching_bracket _ _ _ bf0 at_endloop Hinit Hd eq_refl).
Defined.

Lemma step_fails_only_in_ports_witness :
  (_program at_comma_eof !! _pointer at_comma_eof = Some ","%char ∧
   comma (_read_mode at_comma_eof) = Raise (SystemExit (-2) msg_eof)) ∨
  (_program at_comma_eof !! _pointer at_comma_eof = Some "."%char ∧
   ∃ v, Band.get (_band at_comma_eof) = Ok v ∧
        dot v (_print_mode at_comma_eof) = Raise (SystemExit (-2) msg_eof)).
Proof.
  apply (step_fails_only_in_ports (program_of ",")
           {| written := "" |} {| unread := [] |} at_comma_eof at_comma_eof).
  - vm_compute. reflexivity.
  - apply driven_to_refl.
  - vm_compute. reflexivity.
Defined.

(** ** Batches of steps *)

Section Batches.

Context {R P : Type} `{!ReadMode R} `{!PrintMode P}.

Implicit Types (bf : BrainFuck R P) (n m k : nat).

Lemma run_steps_add n m bf :
  run_steps (n + m) bf = (bf' <- run_steps n bf ;; run_steps m bf').
Proof.
  revert bf. induction n as [|n IH]; intros bf; [done|].
  simpl. destruct (_do_step bf) as [bf1|e]; simpl; [apply IH|done].
Qed.

(** X9. Batches of steps compose: if a batch of [n ≥ 0] steps returns,
    then a batch of [m ≥ 0] steps from where it stopped ends exactly as
    one batch of [n + m] steps from the start. *)
Theorem step_batches_compose fuel (n m : Z) bf bf1 :
  (0 ≤ n)%Z → (0 ≤ m)%Z →
  run_action fuel (AStep n) bf = Some (Ok bf1) →
  run_action fuel (AStep (n + m)) bf = run_action fuel (AStep m) bf1.
Proof.
  intros Hn Hm [= Hrun]. simpl. f_equal.
  rewrite Z2Nat.inj_add, run_steps_add, Hrun by done. done.
Qed.

Lemma run_until_spec fuel (position : Z) bf bf' :
  (position ≤ Z.of_nat (length (_program bf)))%Z →
  run_until fuel position bf = Some (Ok bf') →
  ∃ k, (k ≤ fuel)%nat ∧
       run_steps k bf = Ok bf' ∧
       _counter bf' = (_counter bf + k)%nat ∧
       (position ≤ Z.of_nat (_pointer bf'))%Z ∧
       ∀ j bfj, (j < k)%nat → run_steps j bf = Ok bfj →
                (Z.of_nat (_pointer bfj) < position)%Z.
Proof.
  revert bf. induction fuel as [|fuel IH]; intros bf Hpos Hrun.
  - simpl in Hrun.
    destruct (Z.ltb_spec (Z.of_nat (_pointer bf)) position); [done|].
    injection Hrun as <-. exists 0%nat.
    split; [lia|]. split; [done|]. split; [lia|]. split; [done|]. lia.
  - simpl in Hrun.
    destruct (Z.ltb_spec (Z.of_nat (_pointer bf)) position) as [Hlt|Hge].
    + destruct (_do_step bf) as [bf1|e] eqn:Hs; [|done].
      assert (¬ terminal bf) as Ht by (unfold terminal; lia).
      pose proof (_do_step_program _ _ Hs) as Hp.
      pose proof (_do_step_counter _ _ Ht Hs) as Hc.
      destruct (IH bf1 ltac:(by rewrite Hp) Hrun)
        as (k & Hk & Hsteps & Hcnt & Hptr & Hmin).
      exists (S k). split; [lia|]. split; [by simpl; rewrite Hs|].
      split; [lia|]. split; [done|].
      intros [|j] bfj Hj Hj'.
      * by injection Hj' as <-.
      * simpl in Hj'. rewrite Hs in Hj'. apply (Hmin j); [lia|done].
    + injection Hrun as <-. exists 0%nat.
      split; [lia|]. split; [done|]. split; [lia|]. split; [done|]. lia.
Qed.

(** X8. A run-until turn that returns has made exactly the steps up to
    the first state whose pointer is at or past the target, which is the
    smaller of the requested position and the program length: the pointer
    is there afterwards, it was before the target at every earlier step,
    and the counter has grown by the number of steps made. A target at or
    before the pointer leaves the engine as it is. *)
Theorem run_until_stops_at_target fuel (p : Z) bf bf' :
  run_action fuel (AUntil p) bf = Some (Ok bf') →
  let target := (p `min` Z.of_nat (length (_program bf)))%Z in
  (target ≤ Z.of_nat (_pointer bf'))%Z ∧
  (target ≤ Z.of_nat (_pointer bf) → bf' = bf)%Z ∧
  ∃ k, run_steps k bf = Ok bf' ∧
       _counter bf' = (_counter bf + k)%nat ∧
       ∀ j bfj, (j < k)%nat → run_steps j bf = Ok bfj →
                (Z.of_nat (_pointer bfj) < target)%Z.
Proof.
  simpl. intros Hrun.
  destruct (run_until_spec fuel
              (p `min` Z.of_nat (length (_program bf)))%Z bf bf'
              (Z.le_min_r _ _) Hrun)
    as (k & _ & Hsteps & Hcnt & Hptr & Hmin).
  split; [done|]. split; [|eauto].
  intros Hge. destruct k as [|k]; [by injection Hsteps|].
  specialize (Hmin 0%nat bf ltac:(lia) eq_refl). lia.
Qed.

(** *** The loop of [run] with the base debug mode *)

Lemma debug_terminal bf : terminal bf → debug bf = Raise (SystemExit 0 "").
Proof.
  unfold terminal, debug. intros Ht.
  destruct (Nat.leb_spec (length (_program bf)) (_pointer bf)); [done|lia].
Qed.

Lemma debug_running bf : ¬ terminal bf → debug bf = Ok (AStep 1).
Proof.
  unfold terminal, debug. intros Ht.
  destruct (Nat.leb_spec (length (_program bf)) (_pointer bf)); [lia|done].
Qed.

Lemma run_action_step_1 fuel bf :
  run_action fuel (AStep 1) bf = Some (_do_step bf).
Proof.
  simpl. unfold Pos.to_nat. simpl. f_equal.
  by destruct (_do_step bf).
Qed.

(** X10. With the base debug mode, [run] on a program that reaches its
    end after [k] steps makes exactly these [k] steps and exits with code
    0, whenever it is given [k] turns or more. *)
Theorem run_exits_zero_at_end k fuel bf bf' :
  stepsUntilTerminal bf k →
  run_steps k bf = Ok bf' →
  (k ≤ fuel)%nat →
  run fuel bf = Some (SystemExit 0 "", bf').
Proof.
  revert fuel bf. induction k as [|k IH]; intros fuel bf Hk Hsteps Hfuel.
  - injection Hsteps as <-. destruct Hk as [(bf1 & [= <-] & Ht) _].
    destruct fuel; simpl; by rewrite debug_terminal.
  - destruct (terminal_cases bf) as [Ht|Ht].
    { by apply (stepsUntilTerminal_terminal bf (S k)) in Ht. }
    simpl in Hsteps. apply bind_Ok in Hsteps as (bf1 & Hs & Hsteps).
    destruct (stepsUntilTerminal_step bf bf1 (S k) Ht Hs Hk)
      as (k' & [= <-] & Hk').
    destruct fuel as [|fuel]; [lia|].
    cbn [run]. rewrite debug_running, run_action_step_1, Hs by done.
    apply IH; [done..|lia].
Qed.


End Batches.

Lemma step_batches_compose_witness :
  ∃ bf1, run_action 0 (AStep 3) move_cell = Some (Ok bf1) ∧
         run_action 0 (AStep (3 + 13)) move_cell = run_action 0 (AStep 13) bf1.
Proof.
  eexists. split; [vm_compute; reflexivity|].
  apply (step_batches_compose 0 3 13 move_cell); [lia|lia|].
  vm_compute. reflexivity.
Defined.

Lemma run_until_stops_at_target_witness :
  run_action 16 (AUntil 100) move_cell = Some (Ok move_cell_done) ∧
  let target := (100 `min` Z.of_nat (length (_program move_cell)))%Z in
  (target ≤ Z.of_nat (_pointer move_cell_done))%Z ∧
  (target ≤ Z.of_nat (_pointer move_cell) → move_cell_done = move_cell)%Z ∧
  ∃ k, run_steps k move_cell = Ok move_cell_done ∧
       _counter move_cell_done = (_counter move_cell + k)%nat ∧
       ∀ j bfj, (j < k)%nat → run_steps j move_cell = Ok bfj →
                (Z.of_nat (_pointer bfj) < target)%Z.
Proof.
  assert (H : run_action 16 (AUntil 100) move_cell = Some (Ok move_cell_done))
    by (vm_compute; reflexivity).
  split; [exact H|].
  exact (run_until_stops_at_target 16 100 move_cell move_cell_done H).
Defined.

Lemma run_exits_zero_at_end_witness :
  run 20 move_cell = Some (SystemExit 0 "", move_cell_done).
Proof.
  assert (H : run_steps 16 move_cell = Ok move_cell_done)
    by (vm_compute; reflexivity).
  apply (run_exits_zero_at_end 16 20 move_cell move_cell_done
           move_cell_stepsUntilTerminal H).
  lia.
Defined.


(** ** Input *)

Section Input.

Context {R P : Type} `{!ReadMode R} `{!PrintMode P}.

Implicit Types (bf : BrainFuck R P).

(** X17. A step at [,] whose read mode returns a value stores that value
    in the current cell and leaves every other cell of the band as it
    was; the read mode is left in the state it returned, the print mode
    and the loop stack are untouched, and the pointer and the counter go
    up by one. *)
Theorem comma_stores_value bf (v : Z) (rm : R) :
  _program bf !! _pointer bf = Some ","%char →
  Band.rband (_band bf) ≠ [] →
  comma (_read_mode bf) = Ok (v, rm) →
  ∃ bf', _do_step bf = Ok bf' ∧
         (∀ k, Band.cell (_band bf') k =
               if decide (k = 0%Z) then v else Band.cell (_band bf) k) ∧
         _read_mode bf' = rm ∧
         _print_mode bf' = _print_mode bf ∧
         _loop_stack bf' = _loop_stack bf ∧
         _pointer bf' = (_pointer bf + 1)%nat ∧
         _counter bf' = (_counter bf + 1)%nat.
Proof.
  intros Hc Hr Hcomma.
  destruct (Band_set_total v _ Hr) as (b & Hb & _).
  rewrite (_do_step_at _ _ Hc). unfold dispatch. simpl.
  unfold _comma. rewrite Hcomma. simpl. rewrite Hb. simpl.
  eexists. split; [done|]. simpl.
  split; [|done]. intros k. by apply Band_set_cell.
Qed.

End Input.

(** X20. With the character read mode, a step at [,] when no character is
    left exits with code -2 and the end-of-file message, whatever the
    rest of the engine state. *)
Theorem comma_at_eof_exits {P : Type} `{!PrintMode P}
  (bf : BrainFuck CharReadMode P) :
  _program bf !! _pointer bf = Some ","%char →
  unread (_read_mode bf) = [] →
  _do_step bf = Raise (SystemExit (-2) msg_eof).
Proof.
  intros Hc Hu. rewrite (_do_step_at _ _ Hc). unfold dispatch. simpl.
  unfold _comma, comma, CharReadMode_comma. by rewrite Hu.
Qed.

Lemma comma_stores_value_witness :
  ∃ bf', _do_step at_comma = Ok bf' ∧
         (∀ k, Band.cell (_band bf') k =
               if decide (k = 0%Z) then 65%Z
               else Band.cell (_band at_comma) k) ∧
         _read_mode bf' = {| unread := [] |} ∧
         _print_mode bf' = _print_mode at_comma ∧
         _loop_stack bf' = _loop_stack at_comma ∧
         _pointer bf' = (_pointer at_comma + 1)%nat ∧
         _counter bf' = (_counter at_comma + 1)%nat.
Proof.
  apply (comma_stores_value at_comma 65 {| unread := [] |}).
  - reflexivity.
  - discriminate.
  - reflexivity.
Defined.

Lemma comma_at_eof_exits_witness :
  _do_step at_comma_eof = Raise (SystemExit (-2) msg_eof).
Proof. apply (comma_at_eof_exits at_comma_eof); reflexivity. Defined.

(** ** More on the band *)

(** X4. On a band whose current side is not empty, plus and minus undo
    each other exactly: plus then minus, and minus then plus, return the
    band they started from. *)
Theorem Band_plus_minus_inverse (b : Band.t) :
  Band.rband b ≠ [] →
  (∃ b1, Band.plus b = Ok b1 ∧ Band.minus b1 = Ok b) ∧
  (∃ b1, Band.minus b = Ok b1 ∧ Band.plus b1 = Ok b).
Proof.
  destruct b as [l [|x r]]; [done|]. intros _.
  unfold Band.plus, Band.minus. simpl. split.
  - eexists. split; [done|]. simpl. do 3 f_equal. lia.
  - eexists. split; [done|]. simpl. do 3 f_equal. lia.
Qed.

Lemma Band_plus_minus_inverse_witness :
  (∃ b1, Band.plus Band.new = Ok b1 ∧ Band.minus b1 = Ok Band.new) ∧
  (∃ b1, Band.minus Band.new = Ok b1 ∧ Band.plus b1 = Ok Band.new).
Proof. apply (Band_plus_minus_inverse Band.new). discriminate. Defined.

(** X3. On a band whose current side is not empty, left then right
    returns the very same band exactly when there was a cell to the left
    already, and right then left exactly when there was one to the right;
    at an edge the round trip leaves the new zero cell in the lists. *)
Theorem Band_round_trip_exact (b : Band.t) :
  Band.rband b ≠ [] →
  (Band.right (Band.left b) = b ↔ Band.lband b ≠ []) ∧
  (Band.left (Band.right b) = b ↔ (2 ≤ length (Band.rband b))%nat).
Proof.
  destruct b as [l [|x r]]; [done|]. intros _.
  unfold Band.left, Band.right. simpl. split.
  - destruct l as [|y l]; simpl; [|done].
    split; [intros [= ]|done].
  - destruct r as [|y r]; simpl.
    + split; [intros [= ]|lia].
    + split; [lia|done].
Qed.

Lemma Band_round_trip_exact_witness :
  (Band.right (Band.left Band.new) = Band.new ↔ Band.lband Band.new ≠ []) ∧
  (Band.left (Band.right Band.new) = Band.new
   ↔ (2 ≤ length (Band.rband Band.new))%nat).
Proof. apply (Band_round_trip_exact Band.new). discriminate. Defined.

(** ** More on sanitising *)

Lemma sanitize_id (s : list ascii) :
  Forall (λ c, c ∈ valid_chars) s → sanitize s = s.
Proof.
  unfold sanitize. induction 1 as [|c s Hc _ IH]; [done|].
  by rewrite filter_cons_True, IH.
Qed.

(** X1. The sanitised text is the instructions of the raw text, in their
    order: each of its characters is one of the eight instruction
    characters, it is a subsequence of the raw text, a text of
    instruction characters only is returned unchanged (so sanitising
    twice is sanitising once), and sanitising a concatenation is
    concatenating the sanitised parts. *)
Theorem sanitize_keeps_instructions (raw : list ascii) :
  Forall (λ c, c ∈ valid_chars) (sanitize raw) ∧
  sanitize raw `sublist_of` raw ∧
  (Forall (λ c, c ∈ valid_chars) raw → sanitize raw = raw) ∧
  sanitize (sanitize raw) = sanitize raw ∧
  ∀ more, sanitize (raw ++ more) = sanitize raw ++ sanitize more.
Proof.
  split; [apply sanitize_valid|].
  split; [apply sublist_filter|].
  split; [apply sanitize_id|].
  split; [apply sanitize_id, sanitize_valid|].
  intros more. apply filter_app.
Qed.

(** X2. The bracket check does not need the sanitising: on any text it
    ends exactly as on the sanitised text, with the same return or the
    same exit. *)
Theorem check_valid_ignores_comments (raw : list ascii) :
  check_valid (sanitize raw) = check_valid raw.
Proof. unfold check_valid. by rewrite check_valid_loop_sanitize. Qed.

(** ** Reading integers line by line *)

Section LineInputFacts.

Variable int : string → option Z.

Implicit Types (file skipped rest : list string) (uin : string).

(** X11. [ReadMode.comma] skips the lines that [int] rejects: when the
    unread lines start with rejected, non-empty lines, it exits with code
    -2 if nothing follows them, and if a line that [int] accepts follows,
    it returns the value of that line and leaves exactly the lines after
    it unread. *)
Theorem ReadMode_comma_skips_rejected skipped :
  Forall (λ uin, uin ≠ "" ∧ int uin = None) skipped →
  ReadMode_comma int skipped = Raise (SystemExit (-2) msg_eof) ∧
  ∀ uin value rest,
    uin ≠ "" → int uin = Some value →
    ReadMode_comma int (skipped ++ uin :: rest) = Ok (value, rest).
Proof.
  induction 1 as [|bad skipped [Hne Hbad] _ [IH1 IH2]].
  - split; [done|]. intros uin value rest Hne Hv. simpl.
    rewrite decide_False by done. by rewrite Hv.
  - split.
    + simpl. rewrite decide_False by done. by rewrite Hbad.
    + intros uin value rest Hne' Hv. simpl.
      rewrite decide_False by done. rewrite Hbad. by apply IH2.
Qed.

End LineInputFacts.

Lemma ReadMode_comma_skips_rejected_witness :
  ReadMode_comma int_seven ["x"; "y z"] = Raise (SystemExit (-2) msg_eof) ∧
  ∀ uin value rest,
    uin ≠ "" → int_seven uin = Some value →
    ReadMode_comma int_seven (["x"; "y z"] ++ uin :: rest) = Ok (value, rest).
Proof.
  apply (ReadMode_comma_skips_rejected int_seven ["x"; "y z"]).
  repeat constructor; discriminate.
Defined.

(** ** Printing integers in a base *)

Section BaseN.

Implicit Types (s t str : string) (number b acc d : Z) (c : ascii).

Lemma append_assoc_1 s c str :
  (s +:+ String c "") +:+ str = s +:+ String c str.
Proof.
  induction s as [|x s IH]; [done|].
  change (String x ((s +:+ String c "") +:+ str) = String x (s +:+ String c str)).
  by rewrite IH.
Qed.

Lemma append_empty_r s : s +:+ "" = s.
Proof.
  induction s as [|x s IH]; [done|].
  change (String x (s +:+ "") = String x s). by rewrite IH.
Qed.

Lemma get_past_end s (n : nat) : (String.length s ≤ n)%nat → String.get n s = None.
Proof.
  revert n. induction s as [|x s IH]; intros n Hn; [done|].
  simpl in Hn. destruct n as [|n]; [lia|]. simpl. apply IH. lia.
Qed.

Lemma str_index_past_end s (i : Z) :
  (Z.of_nat (String.length s) ≤ i)%Z → str_index s i = None.
Proof.
  intros Hi. unfold str_index.
  destruct (Z.leb_spec 0 i); [|lia]. apply get_past_end. lia.
Qed.

(** The digits of bases up to 36 stand at their own value. *)
Lemma digit_36 d :
  (0 ≤ d < 36)%Z →
  ∃ c, str_index "0123456789ABCDEFGHIJKLMNOPQRSTUVWXYZ" d = Some c ∧
       digit_value c = Some d.
Proof.
  intros Hd. assert (∃ n : nat, d = Z.of_nat n ∧ (n < 36)%nat) as (n & -> & Hn).
  { exists (Z.to_nat d). lia. }
  do 36 (destruct n as [|n]; [eexists; split; reflexivity|]). lia.
Qed.

Lemma digits_small b :
  (2 ≤ b ≤ 36)%Z →
  digits b = Returned ("", "0123456789ABCDEFGHIJKLMNOPQRSTUVWXYZ", "").
Proof.
  intros [H1 H2]. unfold digits.
  destruct (Z.leb_spec 2 b); [|lia]. destruct (Z.leb_spec b 36); [|lia]. done.
Qed.

Lemma digits_64 :
  digits 64 =
  Returned ("", "ABCDEFGHIJKLMNOPQRSTUVWXYZabcdefghijklmnopqrstuvwxyz+/", "=").
Proof. done. Qed.

Lemma baseN_loop_nonneg b (m : nat) number :
  (2 ≤ b ≤ 36)%Z → (0 ≤ number)%Z → (Z.to_nat number ≤ m)%nat →
  ∃ s (W : Z),
    (∀ fuel str, (Z.to_nat number ≤ fuel)%nat →
       baseN_loop fuel number b "0123456789ABCDEFGHIJKLMNOPQRSTUVWXYZ" str
       = Some (Returned (s +:+ str))) ∧
    (number ≠ 0%Z → s ≠ "") ∧
    ∀ acc t, numeral_value b acc (s +:+ t) =
             numeral_value b (acc * W + number) t.
Proof.
  intros Hb. revert number.
  induction m as [|m IH]; intros number Hn Hm.
  - replace number with 0%Z by lia. exists "", 1%Z.
    split; [by intros [|fuel] str _|]. split; [done|].
    intros acc t. simpl. f_equal. lia.
  - destruct (decide (number = 0%Z)) as [->|Hne].
    { exists "", 1%Z.
      split; [by intros [|fuel] str _|]. split; [done|].
      intros acc t. simpl. f_equal. lia. }
    pose proof (Z.mod_pos_bound number b ltac:(lia)) as Hmod.
    destruct (digit_36 (number `mod` b) ltac:(lia)) as (c & Hidx & Hc).
    assert (0 ≤ number `div` b < number)%Z as Hdiv.
    { split; [apply Z.div_pos; lia|apply Z.div_lt; lia]. }
    destruct (IH (number `div` b)%Z ltac:(lia) ltac:(lia))
      as (s' & W' & Hloop & _ & Hval).
    exists (s' +:+ String c ""), (W' * b)%Z. split; [|split].
    + intros [|fuel] str Hfuel; [lia|].
      simpl. destruct (Z.eqb_spec number 0); [done|].
      rewrite Hidx, Hloop by lia. by rewrite append_assoc_1.
    + by destruct s'.
    + intros acc t. rewrite append_assoc_1, Hval. simpl. rewrite Hc.
      destruct (Z.ltb_spec (number `mod` b) b); [|lia].
      f_equal. pose proof (Z.div_mod number b ltac:(lia)). lia.
Qed.

Lemma baseN_loop_negative b (fuel : nat) number str :
  (2 ≤ b ≤ 36)%Z → (number < 0)%Z →
  baseN_loop fuel number b "0123456789ABCDEFGHIJKLMNOPQRSTUVWXYZ" str = None.
Proof.
  intros Hb. revert number str.
  induction fuel as [|fuel IH]; intros number str Hn; simpl;
    destruct (Z.eqb_spec number 0); try lia; [done|].
  pose proof (Z.mod_pos_bound number b ltac:(lia)) as Hmod.
  destruct (digit_36 (number `mod` b) ltac:(lia)) as (c & -> & _).
  apply IH. apply Z.div_lt_upper_bound; lia.
Qed.

(** X13. For a base from 2 to 36 and a value that is not negative, [dot]
    returns as soon as it is given as many iterations as the value, and
    what it appends to the file is a non-empty numeral followed by [;];
    read back digit by digit in that base, the numeral is the value. *)
Theorem IntBasePrintMode_dot_round_trip (pm : IntBasePrintMode) (value : Z) :
  (2 ≤ base pm ≤ 36)%Z →
  (0 ≤ value)%Z →
  ∃ s, s ≠ "" ∧
       numeral_value (base pm) 0 s = Some value ∧
       ∀ fuel, (Z.to_nat value ≤ fuel)%nat →
         IntBasePrintMode_dot fuel value pm =
         Some (Returned {| base := base pm;
                           base_written := base_written pm +:+ s +:+ ";" |}).
Proof.
  intros Hb Hv. unfold IntBasePrintMode_dot, baseN.
  rewrite digits_small by done.
  destruct (decide (value = 0%Z)) as [->|Hne].
  - exists "0". split; [done|]. split; [|done].
    simpl. destruct (Z.ltb_spec 0 (base pm)); [done|lia].
  - destruct (baseN_loop_nonneg (base pm) (Z.to_nat value) value
                Hb Hv (le_n _)) as (s & W & Hloop & Hs & Hval).
    exists s. split; [by apply Hs|]. split.
    + specialize (Hval 0%Z ""). rewrite append_empty_r in Hval.
      rewrite Hval. simpl; f_equal; lia.
    + intros fuel Hfuel. destruct (Z.eqb_spec value 0); [done|].
      rewrite Hloop by done. by rewrite !append_empty_r.
Qed.

(** X12. For a base from 2 to 36, [dot] of a negative value never
    returns: floor division keeps the number negative, so the loop of
    [baseN] finds no end, however many iterations it is given. *)
Theorem IntBasePrintMode_dot_negative_hangs (pm : IntBasePrintMode)
  (value : Z) (fuel : nat) :
  (2 ≤ base pm ≤ 36)%Z →
  (value < 0)%Z →
  IntBasePrintMode_dot fuel value pm = None.
Proof.
  intros Hb Hv. unfold IntBasePrintMode_dot, baseN.
  rewrite digits_small by done.
  destruct (Z.eqb_spec value 0); [lia|].
  by rewrite baseN_loop_negative.
Qed.

(** X14. In base 64 the digit string has 54 characters only, so [baseN]
    raises [IndexError] for every number other than 0 whose remainder
    modulo 64 is 54 or more. *)
Theorem baseN_64_index_error (number : Z) (fuel : nat) :
  number ≠ 0%Z →
  (54 ≤ number `mod` 64)%Z →
  baseN (S fuel) number 64 = Some (Raised StringIndexError).
Proof.
  intros Hne Hmod. unfold baseN. rewrite digits_64.
  destruct (Z.eqb_spec number 0); [done|].
  cbn [baseN_loop]. destruct (Z.eqb_spec number 0); [done|].
  by rewrite str_index_past_end.
Qed.

(** X15. The constructor of [IntBasePrintMode] rejects no base: its test
    asks for a base above 36 and below 2 at once. A base outside 2 to 36
    other than 64 is accepted, and then every [dot] raises the
    [ValueError] the constructor was meant to raise. *)
Theorem IntBasePrintMode_bad_base_fails_late (b : Z) (file : string) :
  (b < 2 ∨ 36 < b)%Z →
  b ≠ 64%Z →
  ∃ pm, IntBasePrintMode_init b file = Returned pm ∧
        base pm = b ∧
        ∀ fuel value,
          IntBasePrintMode_dot fuel value pm = Some (Raised (ValueError msg_base)).
Proof.
  intros Hb H64. unfold IntBasePrintMode_init.
  replace ((36 <? b)%Z && (b <? 2)%Z) with false
    by (destruct (Z.ltb_spec 36 b), (Z.ltb_spec b 2); simpl; lia).
  eexists. split; [done|]. split; [done|].
  intros fuel value. unfold IntBasePrintMode_dot, baseN, digits. simpl base.
  replace ((2 <=? b)%Z && (b <=? 36)%Z) with false
    by (destruct (Z.leb_spec 2 b), (Z.leb_spec b 36); simpl; lia).
  destruct (Z.eqb_spec b 64); [done|]. done.
Qed.

End BaseN.

Lemma IntBasePrintMode_dot_round_trip_witness :
  ∃ s, s ≠ "" ∧
       numeral_value (base hex_mode) 0 s = Some 255%Z ∧
       ∀ fuel, (Z.to_nat 255 ≤ fuel)%nat →
         IntBasePrintMode_dot fuel 255 hex_mode =
         Some (Returned {| base := base hex_mode;
                           base_written := base_written hex_mode +:+ s +:+ ";" |}).
Proof.
  apply (IntBasePrintMode_dot_round_trip hex_mode 255); simpl; lia.
Defined.

Lemma IntBasePrintMode_dot_negative_hangs_witness :
  IntBasePrintMode_dot 1000 (-1) hex_mode = None.
Proof.
  apply (IntBasePrintMode_dot_negative_hangs hex_mode (-1) 1000); simpl; lia.
Defined.

Lemma baseN_64_index_error_witness :
  baseN 1 63 64 = Some (Raised StringIndexError).
Proof.
  apply (baseN_64_index_error 63 0).
  - lia.
  - vm_compute. discriminate.
Defined.

Lemma IntBasePrintMode_bad_base_fails_late_witness :
  ∃ pm, IntBasePrintMode_init 1 "" = Returned pm ∧
        base pm = 1%Z ∧
        ∀ fuel value,
          IntBasePrintMode_dot fuel value pm = Some (Raised (ValueError msg_base)).
Proof.
  apply (IntBasePrintMode_bad_base_fails_late 1 ""); lia.
Defined.
